(** * Responder side of the bitswap stream protocol

    A shallow embedding of the per-stream protocol engine of the bitswap
    server (frame reader, request processor, send queue) and of the
    in-memory block store, together with the properties of the
    specification that were checked against it. *)

From Stdlib Require Import ZArith Lia List Bool.
From stdpp Require Import gmap strings list.
Import ListNotations.

Open Scope Z_scope.

(** ** Bytes and machine integers *)

Abbreviation byte := Byte.byte.

(** [uint64(b)] for a byte [b]. *)
Definition Z_of_byte (b : byte) : Z := Z.of_N (Byte.to_N b).

(** [byte(x)]: the low eight bits of an integer. *)
Definition byte_of_Z (z : Z) : byte :=
  match Byte.of_N (Z.to_N (z mod 256)) with
  | Some b => b
  | None => Byte.x00
  end.

(** Wrap-around of [uint64] arithmetic. *)
Definition u64 (z : Z) : Z := z mod 2 ^ 64.

(** ** Byte slices

    A [[]byte] is modelled by its length and its contents as a function of
    the index, so that the 4 MiB assembly buffer of the reader is never
    materialised. Indices outside [0, slen) are never read by the code. *)

Record Slice := mkSlice { slen : Z; sget : Z -> byte }.

(** [make([]byte, n)]: [n] zero bytes. *)
Definition make (n : Z) : Slice := mkSlice n (fun _ => Byte.x00).

(** The contents of [s[lo:hi]] as a list. *)
Definition slice (s : Slice) (lo hi : Z) : list byte :=
  map (fun i => sget s (lo + Z.of_nat i)) (seq 0 (Z.to_nat (hi - lo))).

(** The effect on [s] of storing [data] at [s[pos:]], as [Read] and [copy]
    do; the caller makes sure that [data] fits. *)
Definition store_at (s : Slice) (pos : Z) (data : list byte) : Slice :=
  mkSlice (slen s)
    (fun i =>
       if (pos <=? i) && (i <? pos + Z.of_nat (length data))
       then nth (Z.to_nat (i - pos)) data Byte.x00
       else sget s i).

(** [nb := make([]byte, n); copy(nb, s[:])].  [copy] moves
    [min(len(nb), len(s))] bytes. *)
Definition make_copy (n : Z) (s : Slice) : Slice :=
  mkSlice n (fun i => if i <? Z.min n (slen s) then sget s i else Byte.x00).

(** A slice holding exactly the bytes of a list. *)
Definition of_list (l : list byte) : Slice :=
  mkSlice (Z.of_nat (length l)) (fun i => nth (Z.to_nat i) l Byte.x00).

(** ** Variable-length integers ([encoding/binary]) *)

Definition MaxVarintLen64 : Z := 10.

(** The loop of [binary.Uvarint]: [for i, b := range buf].  At most eleven
    bytes are ever inspected, since the loop returns at [i == 10]. *)
Fixpoint Uvarint_loop (fuel : nat) (buf : Slice) (i x s : Z) : Z * Z :=
  match fuel with
  | O => (0, 0)
  | S fuel' =>
      if slen buf <=? i then (0, 0)
      else
        let b := Z_of_byte (sget buf i) in
        if i =? MaxVarintLen64 then (0, - (i + 1))
        else if b <? 0x80 then
          if (i =? MaxVarintLen64 - 1) && (1 <? b) then (0, - (i + 1))
          else (Z.lor x (u64 (Z.shiftl b s)), i + 1)
        else
          Uvarint_loop fuel' buf (i + 1)
            (Z.lor x (u64 (Z.shiftl (Z.land b 0x7f) s))) (s + 7)
  end.

Definition Uvarint (buf : Slice) : Z * Z := Uvarint_loop 11 buf 0 0 0.

(** The loop of [binary.PutUvarint], returning the bytes written.  A
    [uint64] needs at most ten of them. *)
Fixpoint PutUvarint_loop (fuel : nat) (x : Z) : list byte :=
  match fuel with
  | O => []
  | S fuel' =>
      if 0x80 <=? x then byte_of_Z (Z.lor x 0x80) :: PutUvarint_loop fuel' (Z.shiftr x 7)
      else [byte_of_Z x]
  end.

Definition PutUvarint (x : Z) : list byte := PutUvarint_loop 10 (u64 x).

(** ** Errors *)

Inductive error : Type :=
| ErrNotHave                      (* "no requested blocks available" *)
| ErrOverflow                     (* "send queue overflow" *)
| StoreErrNotHave                 (* util.ErrNotHave, "not found" *)
| ErrOther (msg : string)         (* an error of a collaborator *)
| ErrWrap (msg : string) (cause : error).   (* fmt.Errorf("...: %w", cause) *)

(** ** The frame reader *)

(** What one call of [stream.Read] returns. *)
Inductive ReadResult : Type :=
| ReadData (data : list byte)     (* n = len(data), err = nil *)
| ReadTimeout                     (* os.IsTimeout(err) *)
| ReadEOF                         (* errors.Is(err, io.EOF) *)
| ReadError.                      (* any other error *)

(** How the loop stands after a read has been handled. *)
Inductive Status : Type :=
| Running                         (* back at the top of the loop *)
| Returned                        (* returned on end of stream *)
| Closed.                         (* stream.Close() then return *)

(** The local variables of [readLoop]. *)
Record Reader := mkReader {
  buf : Slice;
  pos : Z;
  prefixLen : Z;
  msgLen : Z
}.

Definition initBufSize : Z := 4 * 1024 * 1024.

Definition initReader : Reader := mkReader (make initBufSize) 0 0 0.

Section FrameReader.

(** [bitswap.MaxBlockSize], a constant of the client package. *)
Variable MaxBlockSize : Z.

(** The request processor as the reader sees it: a call on the frame
    body that may fail, acting on the state [H] of the connection. *)
Context {H : Type}.
Variable onMsg : list byte -> H -> option error * H.

(** [Read(buf[pos:])] delivers at most [len(buf) - pos] bytes: of a
    longer delivery only what fits is taken. *)
Definition readInto (r : Reader) (data : list byte) : list byte :=
  let room := slen (buf r) - pos r in
  if Z.of_nat (length data) <=? room then data else take (Z.to_nat room) data.

(** One iteration of the [for] loop, given what [stream.Read] returned. *)
Definition readStep (r : Reader) (h : H) (ev : ReadResult) : Status * Reader * H :=
  match ev with
  | ReadTimeout => (Running, r, h)
  | ReadEOF => (Returned, r, h)
  | ReadError => (Closed, r, h)
  | ReadData data =>
      let got := readInto r data in
      let readLen := Z.of_nat (length got) in
      let buf1 := store_at (buf r) (pos r) got in
      let r1 := mkReader buf1 (pos r) (prefixLen r) (msgLen r) in
      let parsed : option Reader :=
        if msgLen r =? 0 then
          let '(nextLen, intLen) := Uvarint buf1 in
          if intLen <=? 0 then None
          else if MaxBlockSize <? nextLen then None
          else
            let buf2 :=
              if slen buf1 <? nextLen
              then make_copy (u64 (intLen + nextLen)) buf1
              else buf1 in
            Some (mkReader buf2 readLen intLen (u64 (nextLen + intLen)))
        else Some (mkReader buf1 (u64 (pos r + readLen)) (prefixLen r) (msgLen r)) in
      match parsed with
      | None => (Closed, r1, h)
      | Some r2 =>
          if pos r2 =? msgLen r2 then
            match onMsg (slice (buf r2) (prefixLen r2) (msgLen r2)) h with
            | (Some _, h') => (Closed, r2, h')
            | (None, h') => (Running, mkReader (buf r2) 0 0 0, h')
            end
          else (Running, r2, h)
      end
  end.

(** The loop over the successive results of [stream.Read]; when they are
    used up the reader is blocked in [Read]. *)
Fixpoint readRun (evs : list ReadResult) (r : Reader) (h : H) : Status * Reader * H :=
  match evs with
  | [] => (Running, r, h)
  | ev :: evs' =>
      match readStep r h ev with
      | (Running, r', h') => readRun evs' r' h'
      | stop => stop
      end
  end.

Definition readLoop (evs : list ReadResult) (h : H) : Status * Reader * H :=
  readRun evs initReader h.

End FrameReader.

(** A processor for test inputs, in the place of the parameter [onMsg]: it
    accepts every body and keeps the list of the bodies it was called on,
    which shows the calls that the reader makes.  The processor of the
    server itself is [handle] below. *)
Definition record_body (body : list byte) (seen : list (list byte))
  : option error * list (list byte) := (None, seen ++ [body]).

(** [varint-length + body]. *)
Definition frame (body : list byte) : list byte :=
  PutUvarint (Z.of_nat (length body)) ++ body.

Definition dispatched (res : Status * Reader * list (list byte)) : list (list byte) :=
  snd res.

Definition status_of {H} (res : Status * Reader * H) : Status := fst (fst res).

(** ** Wire messages

    The fields of the generated message types that the server reads or
    writes. *)

(** [cid.Cid] is a struct around the binary form of the identifier. *)
Abbreviation cid := string.

Inductive Message_Wantlist_WantType : Type :=
| Message_Wantlist_Block
| Message_Wantlist_Have.

Definition WantType_String (t : Message_Wantlist_WantType) : string :=
  match t with
  | Message_Wantlist_Block => "Block"
  | Message_Wantlist_Have => "Have"
  end.

Record Entry := mkEntry {
  Block : cid;
  Priority : Z;
  Cancel : bool;
  GetWantType : Message_Wantlist_WantType;
  SendDontHave : bool
}.

Inductive BlockPresenceType : Type :=
| Message_Have
| Message_DontHave.

Record BlockPresence := mkBlockPresence {
  Cid : cid;
  Type' : BlockPresenceType
}.

Record Message := mkMessage {
  Entries : list Entry;                  (* Wantlist.Entries *)
  Blocks : list (list byte);
  BlockPresences : list BlockPresence
}.

Definition emptyMessage : Message := mkMessage [] [] [].

Definition addBlock (m : Message) (data : list byte) : Message :=
  mkMessage (Entries m) (Blocks m ++ [data]) (BlockPresences m).

Definition addPresence (m : Message) (p : BlockPresence) : Message :=
  mkMessage (Entries m) (Blocks m) (BlockPresences m ++ [p]).

(** ** The block store capability

    [Has] and [Get] of the [Blockstore] interface.  A store may change with
    every call, so both operations pass its state [S] along; each returns
    the pair of Go results. *)

Record Blockstore (S : Type) := mkBlockstore {
  Has : S -> cid -> (bool * option error) * S;
  Get : S -> cid -> (list byte * option error) * S   (* RawData() of the block *)
}.
Arguments Has {S} _ _ _.
Arguments Get {S} _ _ _.

(** ** The send queue *)

(** [make(chan []byte, 5)] in [readLoop]. *)
Definition queueCap : nat := 5.

(** The messages buffered in the channel, oldest first. *)
Record streamSender := mkSender { queue : list (list byte) }.

(** [select] with a [default] case: the send happens only when the channel
    has room. *)
Definition enqueue (ss : streamSender) (msg : list byte) : option error * streamSender :=
  if (length (queue ss) <? queueCap)%nat
  then (None, mkSender (queue ss ++ [msg]))
  else (Some ErrOverflow, ss).

(** ** The request processor *)

Definition MaxSendMsgSize : Z := 3 * 1024 * 1024.

(** The variables of [onMessage] that its loop updates. *)
Record Build (S : Type) := mkBuild {
  resp : Message;
  filled : Z;
  bstate : S
}.
Arguments mkBuild {S} _ _ _.
Arguments resp {S} _.
Arguments filled {S} _.
Arguments bstate {S} _.

Section Processor.

Context {S : Type}.
Variable bs : Blockstore S.

(** The decoder and encoder of the wire schema. *)
Variable Unmarshal : list byte -> Message * option error.
Variable Marshal : Message -> list byte * option error.

(** The body of the loop over the want-list; [Some err] is [return err].
    [filled] cannot leave the range of [int]: it is below the budget
    whenever a block is added. *)
Definition onEntry (e : Entry) (b : Build S) : option error * Build S :=
  if String.eqb (WantType_String (GetWantType e)) "Block" then
    if filled b <? MaxSendMsgSize then
      match Get bs (bstate b) (Block e) with
      | ((_, Some err), s') => (Some err, mkBuild (resp b) (filled b) s')
      | ((data, None), s') =>
          (None, mkBuild (addBlock (resp b) data)
                   (filled b + Z.of_nat (length data)) s')
      end
    else
      (None, mkBuild (addPresence (resp b) (mkBlockPresence (Block e) Message_Have))
               (filled b) (bstate b))
  else
    match Has bs (bstate b) (Block e) with
    | ((has, err), s') =>
        if bool_decide (err = None) && has then
          (None, mkBuild (addPresence (resp b) (mkBlockPresence (Block e) Message_Have))
                   (filled b) s')
        else if SendDontHave e then
          (None, mkBuild (addPresence (resp b) (mkBlockPresence (Block e) Message_DontHave))
                   (filled b) s')
        else (None, mkBuild (resp b) (filled b) s')
    end.

(** [for _, e := range m.Wantlist.Entries]. *)
Fixpoint onEntries (es : list Entry) (b : Build S) : option error * Build S :=
  match es with
  | [] => (None, b)
  | e :: es' =>
      match onEntry e b with
      | (Some err, b') => (Some err, b')
      | (None, b') => onEntries es' b'
      end
  end.

(** The response under construction when the loop starts. *)
Definition initBuild (s : S) : Build S := mkBuild emptyMessage 0 s.

Definition onMessage (ss : streamSender) (body : list byte) (s : S)
  : option error * (streamSender * S) :=
  match Unmarshal body with
  | (_, Some err) =>
      (Some (ErrWrap "failed to parse message as bitswap" err), (ss, s))
  | (m, None) =>
      match onEntries (Entries m) (initBuild s) with
      | (Some err, b) => (Some err, (ss, bstate b))
      | (None, b) =>
          if 0 <? filled b then
            match Marshal (resp b) with
            | (_, Some err) =>
                (Some (ErrWrap "marshal of response failed" err), (ss, bstate b))
            | (rBytes, None) =>
                let '(err, ss') := enqueue ss rBytes in (err, (ss', bstate b))
            end
          else (Some ErrNotHave, (ss, bstate b))
      end
  end.

(** [onMessage] as the reader calls it, on the state of the connection. *)
Definition handle (body : list byte) (h : streamSender * S)
  : option error * (streamSender * S) :=
  onMessage (fst h) body (snd h).

End Processor.

(** ** The in-memory store ([server/util]) *)

Record store := mkStore { db : gmap cid (list byte) }.

Definition NewMemStore (of_ : gmap cid (list byte)) : store := mkStore of_.

Definition store_Has (s : store) (c : cid) : bool * option error :=
  match db s !! c with
  | Some _ => (true, None)
  | None => (false, None)
  end.

(** [blocks.NewBlockWithCid] checks the hash in debug mode only; otherwise
    it wraps the bytes. *)
Definition store_Get (s : store) (c : cid) : list byte * option error :=
  match db s !! c with
  | Some blk => (blk, None)
  | None => ([], Some StoreErrNotHave)
  end.

(** The store as a [Blockstore]; neither operation changes the map. *)
Definition memBlockstore : Blockstore store :=
  mkBlockstore store (fun s c => (store_Has s c, s)) (fun s c => (store_Get s c, s)).

(** ** Auxiliary definitions for the statements *)

(** The number of raw payload bytes of a message. *)
Definition payload_bytes (blocks : list (list byte)) : Z :=
  fold_right (fun d n => Z.of_nat (length d) + n) 0 blocks.

Definition havePresence (e : Entry) : BlockPresence :=
  mkBlockPresence (Block e) Message_Have.

Definition dontHavePresence (e : Entry) : BlockPresence :=
  mkBlockPresence (Block e) Message_DontHave.

Definition isBlockKind (e : Entry) : Prop := GetWantType e = Message_Wantlist_Block.
Definition isHaveKind (e : Entry) : Prop := GetWantType e = Message_Wantlist_Have.

(** [Get] on each identifier in turn, passing the store along: the
    payloads obtained and the store afterwards. *)
Fixpoint fetchAll {S : Type} (bs : Blockstore S) (cs : list cid) (s : S)
  : list (list byte) * S :=
  match cs with
  | [] => ([], s)
  | c :: cs' =>
      let '((data, _), s1) := Get bs s c in
      let '(ds, s2) := fetchAll bs cs' s1 in
      (data :: ds, s2)
  end.

(** What a [Have]-kind entry adds to the block presences, given the
    results of [Has]. *)
Definition haveAnswer (e : Entry) (has : bool) (err : option error) : list BlockPresence :=
  if bool_decide (err = None) && has then [havePresence e]
  else if SendDontHave e then [dontHavePresence e]
  else [].

(** What the size check of the loop maintains: [filled] counts the payload
    bytes, and the budget was not yet reached when the last block was
    added. *)
Definition budget_inv {S : Type} (b : Build S) : Prop :=
  filled b = payload_bytes (Blocks (resp b)) /\
  forall init last,
    Blocks (resp b) = init ++ [last] -> payload_bytes init < MaxSendMsgSize.

(** ** Concrete stores, codecs and requests used as test inputs *)

(** A store that answers every [Get] with the same payload and every
    [Has] with "present". *)
Definition constStore (data : list byte) : Blockstore unit :=
  mkBlockstore unit (fun s _ => ((true, None), s)) (fun s _ => ((data, None), s)).

(** A store whose [Has] fails while its [Get] works. *)
Definition storeDown : error := ErrOther "store unavailable".

Definition hasFails (data : list byte) : Blockstore unit :=
  mkBlockstore unit (fun s _ => ((false, Some storeDown), s)) (fun s _ => ((data, None), s)).

(** A store whose [Get] fails. *)
Definition getFails : Blockstore unit :=
  mkBlockstore unit (fun s _ => ((true, None), s)) (fun s _ => (([], Some storeDown), s)).

(** A decoder that yields a given request, and an encoder that lists the
    payloads of the response one after the other. *)
Definition decodeAs (es : list Entry) (body : list byte) : Message * option error :=
  (mkMessage es [] [], None).

Definition encodeBlocks (m : Message) : list byte * option error :=
  (concat (Blocks m), None).

Definition wantBlock (c : cid) : Entry := mkEntry c 0 false Message_Wantlist_Block false.
Definition wantHave (c : cid) (sendDontHave : bool) : Entry :=
  mkEntry c 0 false Message_Wantlist_Have sendDontHave.

Definition hello : list byte := [Byte.x68; Byte.x65; Byte.x6c; Byte.x6c; Byte.x6f].

(** The scenario of the specification: block [A] is stored, [B] is not. *)
Definition sampleStore : store := NewMemStore {[ "A"%string := hello ]}.
Definition sampleRequest : list Entry := [wantBlock "A"; wantHave "B" true].

(** A payload one byte larger than the budget. *)
Definition bigBlock : list byte := replicate (Z.to_nat (MaxSendMsgSize + 1)) Byte.x00.

(** ** Statements of the specification that the code does not meet, as
    predicates on an input *)

(** "The payload bytes of the response never exceed the maximum outbound
    message size." *)
Definition within_budget {S : Type} (bs : Blockstore S) (es : list Entry) (s : S) : Prop :=
  payload_bytes (Blocks (resp (snd (onEntries bs es (initBuild s))))) <= MaxSendMsgSize.

(** "Payloads for a prefix of the entries summing to at most the budget,
    a Have assertion for every other entry, whose block is not fetched." *)
Definition budget_prefix {S : Type} (bs : Blockstore S) (es : list Entry) (s : S) : Prop :=
  let b := snd (onEntries bs es (initBuild s)) in
  exists k : nat,
    Blocks (resp b) = fst (fetchAll bs (map Block (take k es)) s) /\
    payload_bytes (Blocks (resp b)) <= MaxSendMsgSize /\
    BlockPresences (resp b) = map havePresence (drop k es) /\
    bstate b = snd (fetchAll bs (map Block (take k es)) s).

(** "An error of [Has] during a Have-kind entry makes [onMessage] return
    that error." *)
Definition has_error_aborts {S : Type} (bs : Blockstore S)
    (Unmarshal : list byte -> Message * option error)
    (Marshal : Message -> list byte * option error)
    (ss : streamSender) (body : list byte) (s : S) : Prop :=
  forall m pre e post b1 has err s1,
    Unmarshal body = (m, None) ->
    Entries m = pre ++ e :: post ->
    isHaveKind e ->
    onEntries bs pre (initBuild s) = (None, b1) ->
    Has bs (bstate b1) (Block e) = ((has, Some err), s1) ->
    fst (onMessage bs Unmarshal Marshal ss body s) = Some err.

(** "A response is enqueued if and only if [filled > 0]; with
    [filled = 0] nothing is enqueued and [ErrNotHave] is returned." *)
Definition enqueued_iff_filled {S : Type} (bs : Blockstore S)
    (Unmarshal : list byte -> Message * option error)
    (Marshal : Message -> list byte * option error)
    (ss : streamSender) (body : list byte) (s : S) : Prop :=
  forall m b,
    Unmarshal body = (m, None) ->
    onEntries bs (Entries m) (initBuild s) = (None, b) ->
    ((exists rBytes,
        queue (fst (snd (onMessage bs Unmarshal Marshal ss body s))) =
          queue ss ++ [rBytes]) <-> 0 < filled b) /\
    (filled b = 0 ->
       fst (snd (onMessage bs Unmarshal Marshal ss body s)) = ss /\
       fst (onMessage bs Unmarshal Marshal ss body s) = Some ErrNotHave).

(** A queue that holds five responses nobody has taken yet. *)
Definition fullQueue : streamSender := mkSender (replicate 5 hello).

(** What the reader keeps true of its buffer. *)
Definition reader_inv (r : Reader) : Prop :=
  initBufSize <= slen (buf r) /\
  (msgLen r <> 0 -> msgLen r - prefixLen r <= slen (buf r)).

(** A stream delivered one byte per read. *)
Definition byte_by_byte (bytes : list byte) : list ReadResult :=
  map (fun b => ReadData [b]) bytes.

(** A body of 128 bytes, the shortest whose length prefix takes two bytes. *)
Definition body128 : list byte := replicate 128 Byte.x41.

(** A body of 3000000 bytes, more than a limit of 2 MiB admits. *)
Definition body3M : list byte := replicate (Z.to_nat 3000000) Byte.x41.

(** The bytes of [l] are the first bytes of [b]. *)
Definition holds (b : Slice) (l : list byte) : Prop :=
  Z.of_nat (length l) <= slen b /\
  forall j, (j < length l)%nat -> sget b (Z.of_nat j) = nth j l Byte.x00.

(** A delivery of one frame that the reader reassembles: no read is empty,
    none reaches into the next frame, and the first one carries the
    whole length prefix. *)
Definition aligned (body : list byte) (chunks : list (list byte)) : Prop :=
  concat chunks = frame body /\
  Forall (fun c => c <> []) chunks /\
  (length (PutUvarint (Z.of_nat (length body))) <= length (hd [] chunks))%nat.

(** ** The response writer *)

(** What one call of [Stream.Write] reports. *)
Inductive WriteResult : Type :=
| WriteAll                        (* n = len(p), err = nil *)
| WriteSome (n : nat)             (* n bytes taken, err = nil *)
| WriteFail (n : nat).            (* err != nil after n bytes *)

(** The bytes of [p] that the stream took. *)
Definition written (res : WriteResult) (p : list byte) : list byte :=
  match res with
  | WriteAll => p
  | WriteSome n | WriteFail n => take n p
  end.

Definition write_failed (res : WriteResult) : bool :=
  match res with
  | WriteFail _ => true
  | _ => false
  end.

(** The variable [next] of [writeLoop], the channel it receives from with
    the flag that tells whether the channel was closed, and what the calls
    of [Write] have put on the stream, one entry per call. *)
Record Writer := mkWriter {
  next : list byte;
  sender : streamSender;
  qclosed : bool;
  wire : list (list byte)
}.

Inductive WriteStatus : Type :=
| Writing                         (* at the top of the loop *)
| Waiting                         (* blocked in the receive *)
| Stopped.                        (* returned *)

(** One iteration of the [for] loop of [writeLoop], given what its call of
    [Write] reports.  The count returned for the prefix is dropped by the
    code, and a receive from the closed, empty channel yields [nil]. *)
Definition writeStep (w : Writer) (res : WriteResult) : WriteStatus * Writer :=
  match next w with
  | _ :: _ =>
      let sent := written res (next w) in
      if write_failed res
      then (Stopped, mkWriter (next w) (sender w) (qclosed w) (wire w ++ [sent]))
      else (Writing,
            mkWriter (drop (length sent) (next w)) (sender w) (qclosed w)
              (wire w ++ [sent]))
  | [] =>
      match queue (sender w) with
      | msg :: rest =>
          let sent := written res (PutUvarint (Z.of_nat (length msg))) in
          if write_failed res
          then (Stopped, mkWriter [] (mkSender rest) (qclosed w) (wire w ++ [sent]))
          else (Writing, mkWriter msg (mkSender rest) (qclosed w) (wire w ++ [sent]))
      | [] =>
          if qclosed w
          then (Stopped,
                mkWriter [] (sender w) (qclosed w)
                  (wire w ++ [written res (PutUvarint 0)]))
          else (Waiting, w)
      end
  end.

(** The loop over the successive results of [Stream.Write]. *)
Fixpoint writeRun (ress : list WriteResult) (w : Writer) : WriteStatus * Writer :=
  match ress with
  | [] => (Writing, w)
  | res :: ress' =>
      match writeStep w res with
      | (Writing, w') => writeRun ress' w'
      | stop => stop
      end
  end.

(** [writeLoop] on a channel that holds the given messages. *)
Definition writeLoop (ress : list WriteResult) (ss : streamSender) (closed : bool)
  : WriteStatus * Writer :=
  writeRun ress (mkWriter [] ss closed []).

(** ** The in-memory store, continued *)

(** [cid.Undef]. *)
Definition Undef : cid := "".

Definition GetAll (s : store) : gmap cid (list byte) := db s.

(** [Add] on a store made by [NewMemStore]; [Sum] is the hash of
    [cid.V1Builder], which names a block or fails.  The map is updated in
    place, which the new store stands for. *)
Definition Add (Sum : list byte -> cid * option error) (s : store) (blk : list byte)
  : cid * store :=
  match Sum blk with
  | (_, Some _) => (Undef, s)
  | (name, None) => (name, mkStore (<[name := blk]> (db s)))
  end.

(** ** Drivers used in the statements *)

(** [enqueue] for each message in turn: the results and the queue left. *)
Fixpoint enqueueAll (ss : streamSender) (msgs : list (list byte))
  : list (option error) * streamSender :=
  match msgs with
  | [] => ([], ss)
  | msg :: msgs' =>
      let '(err, ss1) := enqueue ss msg in
      let '(errs, ss2) := enqueueAll ss1 msgs' in
      (err :: errs, ss2)
  end.

(** The calls of [Write] that send one message whole: its prefix, then
    its body unless it is empty. *)
Definition sent_whole (msg : list byte) : list (list byte) :=
  PutUvarint (Z.of_nat (length msg)) :: match msg with [] => [] | _ => [msg] end.

(** What the writer still has to put on the stream, and what it has put
    there. *)
Definition pending (w : Writer) : list byte :=
  next w ++ concat (map frame (queue (sender w))).

Definition on_wire (w : Writer) : list byte := concat (wire w).

(** A call of [Write] that does not fail and takes all that it is offered
    or at least [MaxVarintLen64] bytes of it. *)
Definition takes_prefix (res : WriteResult) : Prop :=
  match res with
  | WriteAll => True
  | WriteSome n => (Z.to_nat MaxVarintLen64 <= n)%nat
  | WriteFail _ => False
  end.

(** ** The frame reader, continued *)

Definition isTimeout (ev : ReadResult) : bool :=
  match ev with
  | ReadTimeout => true
  | _ => false
  end.

(** The end of an iteration of [readLoop] in which the frame is complete:
    the body goes to the processor, whose error closes the stream. *)
Definition after_frame {H : Type} (onMsg : list byte -> H -> option error * H)
    (r : Reader) (h : H) : Status * Reader * H :=
  match onMsg (slice (buf r) (prefixLen r) (msgLen r)) h with
  | (Some _, h') => (Closed, r, h')
  | (None, h') => (Running, mkReader (buf r) 0 0 0, h')
  end.

(** The slice expressions of [readLoop] are in range. *)
Definition reader_bounds (r : Reader) : Prop :=
  0 <= pos r <= slen (buf r) /\
  slen (buf r) < 2 ^ 64 /\
  (msgLen r = 0 -> pos r = 0 /\ prefixLen r = 0) /\
  (msgLen r <> 0 -> 0 < prefixLen r <= msgLen r).

(** What the reader is to do with the bodies of a stream of frames: the
    processor is called on each in turn until a call returns an error,
    which closes the stream; the bodies after that one are not handed
    over. *)
Fixpoint serveAll {H : Type} (onMsg : list byte -> H -> option error * H)
    (bodies : list (list byte)) (h : H) : Status * H :=
  match bodies with
  | [] => (Running, h)
  | body :: bodies' =>
      match onMsg body h with
      | (Some _, h') => (Closed, h')
      | (None, h') => serveAll onMsg bodies' h'
      end
  end.

(** A hash for examples, which gives every block the same name. *)
Definition nameOf (name : cid) (blk : list byte) : cid * option error := (name, None).

(** * Properties *)

(** ** The send queue *)

Lemma enqueue_free ss msg :
  (length (queue ss) < queueCap)%nat ->
  enqueue ss msg = (None, mkSender (queue ss ++ [msg])).
Proof.
  intros Hfree. unfold enqueue.
  destruct (Nat.ltb_spec (length (queue ss)) queueCap); [reflexivity | lia].
Qed.

Lemma enqueue_full ss msg :
  (queueCap <= length (queue ss))%nat ->
  enqueue ss msg = (Some ErrOverflow, ss).
Proof.
  intros Hfull. unfold enqueue.
  destruct (Nat.ltb_spec (length (queue ss)) queueCap); [lia | reflexivity].
Qed.

(** ** The loop over the want-list *)

Ltac extends_done :=
  rewrite ?app_nil_r; simpl; repeat split; first [reflexivity | lia | congruence].

Section ProcessorFacts.

Context {S : Type}.
Variable bs : Blockstore S.

Lemma onEntry_fetch e b data s' :
  isBlockKind e -> filled b < MaxSendMsgSize ->
  Get bs (bstate b) (Block e) = ((data, None), s') ->
  onEntry bs e b =
    (None, mkBuild (addBlock (resp b) data) (filled b + Z.of_nat (length data)) s').
Proof.
  intros Hk Hlt Hget. unfold onEntry. rewrite Hk. simpl.
  destruct (Z.ltb_spec (filled b) MaxSendMsgSize); [|lia].
  now rewrite Hget.
Qed.

Lemma onEntry_fetch_error e b data err s' :
  isBlockKind e -> filled b < MaxSendMsgSize ->
  Get bs (bstate b) (Block e) = ((data, Some err), s') ->
  onEntry bs e b = (Some err, mkBuild (resp b) (filled b) s').
Proof.
  intros Hk Hlt Hget. unfold onEntry. rewrite Hk. simpl.
  destruct (Z.ltb_spec (filled b) MaxSendMsgSize); [|lia].
  now rewrite Hget.
Qed.

Lemma onEntry_exhausted e b :
  isBlockKind e -> MaxSendMsgSize <= filled b ->
  onEntry bs e b =
    (None, mkBuild (addPresence (resp b) (havePresence e)) (filled b) (bstate b)).
Proof.
  intros Hk Hge. unfold onEntry. rewrite Hk. simpl.
  destruct (Z.ltb_spec (filled b) MaxSendMsgSize); [lia|reflexivity].
Qed.

Lemma onEntry_have e b has err s' :
  isHaveKind e ->
  Has bs (bstate b) (Block e) = ((has, err), s') ->
  onEntry bs e b =
    (None, mkBuild
             (mkMessage (Entries (resp b)) (Blocks (resp b))
                (BlockPresences (resp b) ++ haveAnswer e has err))
             (filled b) s').
Proof.
  intros Hk Hhas. unfold onEntry, haveAnswer. rewrite Hk. simpl. rewrite Hhas.
  destruct (bool_decide (err = None) && has); [reflexivity|].
  destruct (SendDontHave e); [reflexivity|].
  rewrite app_nil_r. now destruct b as [[] ? ?].
Qed.

Lemma onEntries_app xs ys b :
  onEntries bs (xs ++ ys) b =
    match onEntries bs xs b with
    | (Some err, b') => (Some err, b')
    | (None, b') => onEntries bs ys b'
    end.
Proof.
  revert b. induction xs as [|x xs IH]; intros b; simpl; [reflexivity|].
  destruct (onEntry bs x b) as [[err|] b']; [reflexivity|apply IH].
Qed.

(** Every entry leaves the earlier blocks and presences in place. *)
Lemma onEntry_extends e b err b' :
  onEntry bs e b = (err, b') ->
  exists ds ps,
    Blocks (resp b') = Blocks (resp b) ++ ds /\
    BlockPresences (resp b') = BlockPresences (resp b) ++ ps /\
    filled b' = filled b + payload_bytes ds /\
    (length ds <= 1)%nat /\
    (ds <> [] -> filled b < MaxSendMsgSize).
Proof.
  unfold onEntry. intros Hstep.
  destruct (String.eqb _ _).
  - destruct (Z.ltb_spec (filled b) MaxSendMsgSize).
    + destruct (Get bs (bstate b) (Block e)) as [[data [er|]] s'];
        inversion Hstep; subst; simpl.
      * exists [], []. extends_done.
      * exists [data], []. extends_done.
    + inversion Hstep; subst; simpl.
      exists [], [havePresence e]. extends_done.
  - destruct (Has bs (bstate b) (Block e)) as [[has er] s'].
    destruct (bool_decide (er = None) && has);
      [|destruct (SendDontHave e)]; inversion Hstep; subst; simpl.
    + exists [], [havePresence e]. extends_done.
    + exists [], [dontHavePresence e]. extends_done.
    + exists [], []. extends_done.
Qed.

Lemma payload_bytes_app xs ys :
  payload_bytes (xs ++ ys) = payload_bytes xs + payload_bytes ys.
Proof. induction xs as [|x xs IH]; simpl; [reflexivity | rewrite IH; lia]. Qed.

Lemma payload_bytes_nonneg xs : 0 <= payload_bytes xs.
Proof. induction xs as [|x xs IH]; simpl; lia. Qed.

Lemma onEntries_extends es b err b' :
  onEntries bs es b = (err, b') ->
  exists ds ps,
    Blocks (resp b') = Blocks (resp b) ++ ds /\
    BlockPresences (resp b') = BlockPresences (resp b) ++ ps /\
    filled b' = filled b + payload_bytes ds.
Proof.
  revert b. induction es as [|e es IH]; intros b Hrun; simpl in Hrun.
  - inversion Hrun; subst. exists [], []. rewrite !app_nil_r. simpl.
    repeat split; lia.
  - destruct (onEntry bs e b) as [oe b1] eqn:Hstep.
    destruct (onEntry_extends _ _ _ _ Hstep) as (ds1 & ps1 & Hb & Hp & Hf & _).
    destruct oe as [er|].
    + inversion Hrun; subst. now exists ds1, ps1.
    + destruct (IH _ Hrun) as (ds2 & ps2 & Hb2 & Hp2 & Hf2).
      exists (ds1 ++ ds2), (ps1 ++ ps2).
      rewrite Hb2, Hp2, Hf2, Hb, Hp, Hf, payload_bytes_app, <- !app_assoc.
      repeat split; lia.
Qed.

Lemma budget_inv_init (s : S) : budget_inv (initBuild s).
Proof.
  split; [reflexivity|]. intros init last Heq. simpl in Heq.
  destruct init; discriminate.
Qed.

Lemma onEntry_budget_inv e b err b' :
  budget_inv b -> onEntry bs e b = (err, b') -> budget_inv b'.
Proof.
  intros [Hfill Hlast] Hstep.
  destruct (onEntry_extends _ _ _ _ Hstep) as (ds & ps & Hb & _ & Hf & Hlen & Hroom).
  destruct ds as [|d [|d' ds]]; simpl in Hlen; [| |lia].
  - rewrite app_nil_r in Hb. simpl in Hf. split.
    + rewrite Hb. lia.
    + intros init last Heq. apply (Hlast init last). congruence.
  - split.
    + rewrite Hf, Hb, payload_bytes_app. lia.
    + intros init last Heq. rewrite Hb in Heq.
      apply app_inj_tail in Heq as [<- _].
      rewrite <- Hfill. apply Hroom. discriminate.
Qed.

Lemma onEntries_budget_inv es b err b' :
  budget_inv b -> onEntries bs es b = (err, b') -> budget_inv b'.
Proof.
  revert b. induction es as [|e es IH]; intros b Hinv Hrun; simpl in Hrun.
  - now inversion Hrun; subst.
  - destruct (onEntry bs e b) as [oe b1] eqn:Hstep.
    pose proof (onEntry_budget_inv _ _ _ _ Hinv Hstep) as Hinv1.
    destruct oe as [er|]; [now inversion Hrun; subst | eauto].
Qed.

End ProcessorFacts.

(** ** The in-memory store *)

(** C10: [Has] of the in-memory store never returns an error; its boolean
    tells whether the identifier is a key of the backing map, and a
    Have-kind entry looked up in this store is answered without error. *)
Theorem store_Has_never_fails (s : store) (c : cid) :
  store_Has s c = (bool_decide (is_Some (db s !! c)), None) /\
  Has memBlockstore s c = (store_Has s c, s) /\
  (forall e b, isHaveKind e -> bstate b = s -> Block e = c ->
     onEntry memBlockstore e b =
       (None, mkBuild
                (mkMessage (Entries (resp b)) (Blocks (resp b))
                   (BlockPresences (resp b) ++
                      haveAnswer e (bool_decide (is_Some (db s !! c))) None))
                (filled b) s)).
Proof.
  assert (Hhas : store_Has s c = (bool_decide (is_Some (db s !! c)), None)).
  { unfold store_Has. destruct (db s !! c) as [blk|] eqn:Hlook.
    - rewrite bool_decide_eq_true_2; [reflexivity | eauto].
    - rewrite bool_decide_eq_false_2; [reflexivity | apply is_Some_None]. }
  split; [exact Hhas|]. split; [reflexivity|].
  intros e b Hk Hs Hc. apply onEntry_have; [exact Hk|].
  simpl. now rewrite Hs, Hc, Hhas.
Qed.

Lemma store_Has_never_fails_witness :
  isHaveKind (wantHave "B" true) /\
  onEntry memBlockstore (wantHave "B" true)
    (initBuild (NewMemStore {[ "A"%string := hello ]})) =
    (None, mkBuild (mkMessage [] [] [dontHavePresence (wantHave "B" true)]) 0
             (NewMemStore {[ "A"%string := hello ]})).
Proof.
  split; [reflexivity|].
  destruct (store_Has_never_fails (NewMemStore {[ "A"%string := hello ]}) "B")
    as (_ & _ & Hentry).
  rewrite (Hentry (wantHave "B" true) (initBuild (NewMemStore {[ "A"%string := hello ]})));
    reflexivity.
Defined.

(** ** The send queue *)

(** C8: with five messages buffered, [enqueue] returns [ErrOverflow] at
    once and leaves the queue as it is; with a free slot it appends the
    message and returns no error. *)
Theorem enqueue_sheds_when_full (ss : streamSender) (msg : list byte) :
  (length (queue ss) <= 5)%nat ->
  (length (queue ss) = 5%nat -> enqueue ss msg = (Some ErrOverflow, ss)) /\
  ((length (queue ss) < 5)%nat ->
     enqueue ss msg = (None, mkSender (queue ss ++ [msg])) /\
     (length (queue (snd (enqueue ss msg))) <= 5)%nat).
Proof.
  intros _. split.
  - intros Hfull. apply enqueue_full. unfold queueCap. lia.
  - intros Hfree. rewrite enqueue_free by (unfold queueCap; lia).
    split; [reflexivity|]. simpl. rewrite length_app. simpl. lia.
Qed.

Lemma enqueue_sheds_when_full_witness :
  (length (queue (mkSender [hello; hello; hello; hello; hello])) <= 5)%nat /\
  enqueue (mkSender [hello; hello; hello; hello; hello]) [Byte.x01] =
    (Some ErrOverflow, mkSender [hello; hello; hello; hello; hello]).
Proof.
  split; [simpl; lia|].
  apply (enqueue_sheds_when_full (mkSender [hello; hello; hello; hello; hello]) [Byte.x01]);
    [simpl; lia | reflexivity].
Defined.

(** ** The request processor *)

Section ProcessorClaims.

Context {S : Type}.
Variable bs : Blockstore S.
Variable Unmarshal : list byte -> Message * option error.
Variable Marshal : Message -> list byte * option error.

Lemma filled_nonneg es (s : S) err b :
  onEntries bs es (initBuild s) = (err, b) -> 0 <= filled b.
Proof.
  intros Hrun. destruct (onEntries_extends _ _ _ _ _ Hrun) as (ds & _ & _ & _ & Hf).
  rewrite Hf. simpl. pose proof (payload_bytes_nonneg ds). lia.
Qed.

(** [onMessage] once the request is decoded and the loop has run. *)
Lemma onMessage_decoded ss body s m :
  Unmarshal body = (m, None) ->
  onMessage bs Unmarshal Marshal ss body s =
    match onEntries bs (Entries m) (initBuild s) with
    | (Some err, b) => (Some err, (ss, bstate b))
    | (None, b) =>
        if 0 <? filled b then
          match Marshal (resp b) with
          | (_, Some err) =>
              (Some (ErrWrap "marshal of response failed" err), (ss, bstate b))
          | (rBytes, None) =>
              let '(err, ss') := enqueue ss rBytes in (err, (ss', bstate b))
          end
        else (Some ErrNotHave, (ss, bstate b))
    end.
Proof. intros Hdec. unfold onMessage. now rewrite Hdec. Qed.

(** C5: a decoded request puts a response on the writer's queue exactly
    when its want-list was processed to the end, [filled > 0], the
    response could be encoded and the queue has a free slot; the encoded
    response is then the last message of the queue and no error is
    returned.  In every other case the queue is left as it was and an
    error is returned: the error of [Get] that ended the loop,
    [ErrNotHave] when [filled = 0] whatever presences were collected, the
    error of the encoder, or [ErrOverflow] when the queue holds five
    messages. *)
Theorem response_enqueued_iff ss body s m err b :
  Unmarshal body = (m, None) ->
  onEntries bs (Entries m) (initBuild s) = (err, b) ->
  (err = None /\ 0 < filled b /\ snd (Marshal (resp b)) = None /\
   (length (queue ss) < queueCap)%nat <->
   fst (onMessage bs Unmarshal Marshal ss body s) = None) /\
  (fst (onMessage bs Unmarshal Marshal ss body s) = None ->
   onMessage bs Unmarshal Marshal ss body s =
     (None, (mkSender (queue ss ++ [fst (Marshal (resp b))]), bstate b))) /\
  (fst (onMessage bs Unmarshal Marshal ss body s) <> None ->
   snd (onMessage bs Unmarshal Marshal ss body s) = (ss, bstate b)) /\
  (forall e, err = Some e ->
     fst (onMessage bs Unmarshal Marshal ss body s) = Some e) /\
  (err = None -> filled b = 0 ->
   fst (onMessage bs Unmarshal Marshal ss body s) = Some ErrNotHave) /\
  (err = None -> 0 < filled b ->
   forall e, snd (Marshal (resp b)) = Some e ->
     fst (onMessage bs Unmarshal Marshal ss body s) =
       Some (ErrWrap "marshal of response failed" e)) /\
  (err = None -> 0 < filled b -> snd (Marshal (resp b)) = None ->
   (queueCap <= length (queue ss))%nat ->
   fst (onMessage bs Unmarshal Marshal ss body s) = Some ErrOverflow).
Proof.
  intros Hdec Hrun.
  pose proof (filled_nonneg _ _ _ _ Hrun) as Hnn.
  rewrite (onMessage_decoded ss body s m Hdec), Hrun.
  destruct err as [e0|].
  { cbn [fst snd]. repeat split; intros; try congruence; try discriminate;
      try lia; intuition discriminate. }
  destruct (Z.ltb_spec 0 (filled b)) as [Hpos|Hzero].
  2:{ cbn [fst snd]. repeat split; intros; try congruence; try discriminate;
        try lia; intuition lia. }
  destruct (Marshal (resp b)) as [rBytes [e1|]] eqn:Hmar; cbn [fst snd].
  { repeat split; intros; try congruence; try discriminate; try lia;
      intuition discriminate. }
  destruct (Nat.lt_ge_cases (length (queue ss)) queueCap) as [Hroom|Hfull].
  - rewrite (enqueue_free ss rBytes Hroom). cbn [fst snd].
    repeat split; intros; try congruence; try discriminate; try lia.
  - rewrite (enqueue_full ss rBytes Hfull). cbn [fst snd].
    repeat split; intros; try congruence; try discriminate; try lia;
      intuition lia.
Qed.

(** C6: a Have-kind entry whose identifier the store reports without
    error adds exactly one assertion or none: [Have] when present, and
    when absent [DontHave] if the entry's send-dont-have flag is set and
    nothing otherwise.  Blocks and byte count are untouched, and the
    later entries only append to what this entry left. *)
Theorem have_entry_answer pre e post (s : S) b1 has s1 :
  isHaveKind e ->
  onEntries bs pre (initBuild s) = (None, b1) ->
  Has bs (bstate b1) (Block e) = ((has, None), s1) ->
  exists b2,
    onEntries bs (pre ++ [e]) (initBuild s) = (None, b2) /\
    Blocks (resp b2) = Blocks (resp b1) /\
    filled b2 = filled b1 /\
    bstate b2 = s1 /\
    BlockPresences (resp b2) =
      BlockPresences (resp b1) ++
        (if has then [havePresence e]
         else if SendDontHave e then [dontHavePresence e] else []) /\
    (forall err b,
       onEntries bs (pre ++ e :: post) (initBuild s) = (err, b) ->
       onEntries bs post b2 = (err, b) /\
       exists later,
         BlockPresences (resp b) = BlockPresences (resp b2) ++ later).
Proof.
  intros Hk Hpre Hhas.
  pose proof (onEntry_have bs e b1 has None s1 Hk Hhas) as Hstep.
  eexists. split.
  { rewrite onEntries_app, Hpre. simpl. rewrite Hstep. reflexivity. }
  simpl. split; [reflexivity|]. split; [reflexivity|]. split; [reflexivity|].
  split; [reflexivity|].
  intros err b Hall.
  rewrite onEntries_app, Hpre in Hall. simpl in Hall. rewrite Hstep in Hall.
  split; [exact Hall|].
  destruct (onEntries_extends _ _ _ _ _ Hall) as (_ & ps & _ & Hp & _).
  now exists ps.
Qed.

End ProcessorClaims.

Section BudgetClaims.

Context {S : Type}.
Variable bs : Blockstore S.

Lemma fetchAll_length cs (s : S) : length (fst (fetchAll bs cs s)) = length cs.
Proof.
  revert s. induction cs as [|c cs IH]; intros s; simpl; [reflexivity|].
  destruct (Get bs s c) as [[data err] s1].
  specialize (IH s1). destruct (fetchAll bs cs s1) as [ds s2]. simpl in *. lia.
Qed.

(** The loop on Block-kind entries only, from any point of the build. *)
Lemma block_entries_prefix es b0 b :
  Forall isBlockKind es ->
  onEntries bs es b0 = (None, b) ->
  exists k : nat,
    (k <= length es)%nat /\
    Blocks (resp b) =
      Blocks (resp b0) ++ fst (fetchAll bs (map Block (take k es)) (bstate b0)) /\
    BlockPresences (resp b) =
      BlockPresences (resp b0) ++ map havePresence (drop k es) /\
    bstate b = snd (fetchAll bs (map Block (take k es)) (bstate b0)) /\
    filled b =
      filled b0 + payload_bytes (fst (fetchAll bs (map Block (take k es)) (bstate b0))) /\
    ((k < length es)%nat -> MaxSendMsgSize <= filled b) /\
    (forall init last,
       fst (fetchAll bs (map Block (take k es)) (bstate b0)) = init ++ [last] ->
       filled b0 + payload_bytes init < MaxSendMsgSize).
Proof.
  intros Hkind. revert b0.
  induction Hkind as [|e es He Hes IH]; intros b0 Hrun; simpl in Hrun.
  - inversion Hrun; subst. exists 0%nat. simpl. rewrite !app_nil_r.
    repeat split; try lia. intros [|] ? ?; discriminate.
  - destruct (Z.lt_ge_cases (filled b0) MaxSendMsgSize) as [Hroom|Hfull].
    + destruct (Get bs (bstate b0) (Block e)) as [[data [er|]] s1] eqn:Hget.
      { rewrite (onEntry_fetch_error bs e b0 data er s1 He Hroom Hget) in Hrun.
        discriminate. }
      rewrite (onEntry_fetch bs e b0 data s1 He Hroom Hget) in Hrun.
      destruct (IH _ Hrun) as (k & Hk & Hb & Hp & Hs & Hf & Hstop & Hlast).
      simpl in Hb, Hp, Hs, Hf, Hstop, Hlast.
      exists (Datatypes.S k). simpl. rewrite Hget.
      destruct (fetchAll bs (map Block (take k es)) s1) as [ds s2] eqn:Hfetch.
      simpl in *. rewrite <- app_assoc in Hb. simpl in Hb.
      split; [lia|]. split; [exact Hb|]. split; [exact Hp|]. split; [exact Hs|].
      split; [lia|]. split; [intros; apply Hstop; lia|].
      intros init last Heq. destruct init as [|d init]; simpl in *.
      * lia.
      * inversion Heq; subst. specialize (Hlast _ _ eq_refl). lia.
    + rewrite (onEntry_exhausted bs e b0 He Hfull) in Hrun.
      destruct (IH _ Hrun) as (k & Hk & Hb & Hp & Hs & Hf & Hstop & Hlast).
      simpl in Hb, Hp, Hs, Hf, Hstop, Hlast.
      assert (Hk0 : k = 0%nat).
      { pose proof (fetchAll_length (map Block (take k es)) (bstate b0)) as Hlen.
        destruct (fst (fetchAll bs (map Block (take k es)) (bstate b0)))
          as [|d ds] using rev_ind.
        - simpl in Hlen. rewrite length_map, length_take in Hlen. lia.
        - specialize (Hlast _ _ eq_refl).
          pose proof (payload_bytes_nonneg ds). lia. }
      subst k. exists 0%nat. simpl in *. rewrite app_nil_r in *.
      rewrite <- app_assoc in Hp. simpl in Hp.
      split; [lia|]. split; [exact Hb|]. split; [exact Hp|]. split; [exact Hs|].
      split; [lia|]. split; [intros; lia|].
      intros [|] ? ?; discriminate.
Qed.

(** C3, as the code has it: [filled] is the number of payload bytes of
    the response, and the budget bounds the bytes that precede the last
    block, so that the total stays below the budget plus the size of the
    last block. *)
Theorem payload_budget_soft es (s : S) err b :
  onEntries bs es (initBuild s) = (err, b) ->
  payload_bytes (Blocks (resp b)) = filled b /\
  (Blocks (resp b) = [] \/
   exists init last,
     Blocks (resp b) = init ++ [last] /\
     payload_bytes init < MaxSendMsgSize /\
     payload_bytes (Blocks (resp b)) < MaxSendMsgSize + Z.of_nat (length last)).
Proof.
  intros Hrun.
  destruct (onEntries_budget_inv bs es _ err b (budget_inv_init s) Hrun)
    as [Hfill Hlast].
  split; [symmetry; exact Hfill|].
  destruct (Blocks (resp b)) as [|d ds] using rev_ind; [now left|right].
  exists ds, d. specialize (Hlast _ _ eq_refl).
  rewrite payload_bytes_app. simpl. repeat split; lia.
Qed.

(** C4, as the code has it: when every entry is Block-kind and no [Get]
    fails, the response holds the payloads of the first [k] entries and
    a Have assertion for each later entry, in request order, and the
    store was asked for the first [k] blocks only.  The prefix is the
    shortest one that reaches the budget: the payloads before its last
    one sum to less than the budget, and if any entry is left the whole
    prefix sums to the budget or more. *)
Theorem budget_prefix_shortest es (s : S) b :
  Forall isBlockKind es ->
  onEntries bs es (initBuild s) = (None, b) ->
  exists k : nat,
    (k <= length es)%nat /\
    Blocks (resp b) = fst (fetchAll bs (map Block (take k es)) s) /\
    BlockPresences (resp b) = map havePresence (drop k es) /\
    bstate b = snd (fetchAll bs (map Block (take k es)) s) /\
    ((k < length es)%nat -> MaxSendMsgSize <= payload_bytes (Blocks (resp b))) /\
    (forall init last,
       Blocks (resp b) = init ++ [last] -> payload_bytes init < MaxSendMsgSize).
Proof.
  intros Hkind Hrun.
  destruct (block_entries_prefix es _ b Hkind Hrun)
    as (k & Hk & Hb & Hp & Hs & Hf & Hstop & Hlast).
  simpl in *. exists k.
  split; [exact Hk|]. split; [exact Hb|]. split; [exact Hp|]. split; [exact Hs|].
  split.
  - intros Hlt. specialize (Hstop Hlt). rewrite Hb. lia.
  - intros init last Heq. rewrite Hb in Heq. specialize (Hlast _ _ Heq). lia.
Qed.

End BudgetClaims.

Section StoreErrors.

Context {S : Type}.
Variable bs : Blockstore S.
Variable Unmarshal : list byte -> Message * option error.
Variable Marshal : Message -> list byte * option error.

(** C2, as the code has it: an error of [Get] for a Block-kind entry
    reached under the budget ends [onMessage] with that very error,
    nothing is enqueued and the store is not asked again; an error of
    [Has] for a Have-kind entry is not returned: the entry is answered
    like an absent identifier and the loop goes on. *)
Theorem store_error_policy ss body (s : S) m pre e post b1 :
  Unmarshal body = (m, None) ->
  Entries m = pre ++ e :: post ->
  onEntries bs pre (initBuild s) = (None, b1) ->
  (isBlockKind e -> filled b1 < MaxSendMsgSize ->
     forall data err s1,
       Get bs (bstate b1) (Block e) = ((data, Some err), s1) ->
       onMessage bs Unmarshal Marshal ss body s = (Some err, (ss, s1))) /\
  (isHaveKind e ->
     forall has err s1,
       Has bs (bstate b1) (Block e) = ((has, Some err), s1) ->
       onEntries bs (pre ++ [e]) (initBuild s) =
         (None, mkBuild
                  (mkMessage (Entries (resp b1)) (Blocks (resp b1))
                     (BlockPresences (resp b1) ++
                        (if SendDontHave e then [dontHavePresence e] else [])))
                  (filled b1) s1)).
Proof.
  intros Hdec Hentries Hpre. split.
  - intros Hk Hroom data err s1 Hget.
    rewrite (onMessage_decoded bs Unmarshal Marshal ss body s m Hdec), Hentries.
    rewrite onEntries_app, Hpre. simpl.
    now rewrite (onEntry_fetch_error bs e b1 data err s1 Hk Hroom Hget).
  - intros Hk has err s1 Hhas.
    rewrite onEntries_app, Hpre. simpl.
    rewrite (onEntry_have bs e b1 has (Some err) s1 Hk Hhas).
    unfold haveAnswer. rewrite bool_decide_eq_false_2 by discriminate.
    reflexivity.
Qed.

End StoreErrors.

(** ** The claims on concrete inputs *)


Lemma sample_response :
  onEntries memBlockstore sampleRequest (initBuild sampleStore) =
    (None, mkBuild (mkMessage [] [hello] [dontHavePresence (wantHave "B" true)]) 5
             sampleStore).
Proof. reflexivity. Qed.

Lemma response_enqueued_iff_witness :
  decodeAs sampleRequest [] = (mkMessage sampleRequest [] [], None) /\
  onEntries memBlockstore sampleRequest (initBuild sampleStore) =
    (None, mkBuild (mkMessage [] [hello] [dontHavePresence (wantHave "B" true)]) 5
             sampleStore) /\
  onMessage memBlockstore (decodeAs sampleRequest) encodeBlocks (mkSender []) []
    sampleStore = (None, (mkSender [hello], sampleStore)).
Proof.
  split; [reflexivity|]. split; [reflexivity|].
  destruct (response_enqueued_iff memBlockstore (decodeAs sampleRequest) encodeBlocks
              (mkSender []) [] sampleStore (mkMessage sampleRequest [] []) None
              (mkBuild (mkMessage [] [hello] [dontHavePresence (wantHave "B" true)]) 5
                 sampleStore) eq_refl eq_refl) as (Hiff & Hsent & _).
  rewrite Hsent; [reflexivity|].
  apply Hiff. repeat split; try reflexivity; try (cbn; unfold queueCap; lia).
Defined.

(** C5 fails on a full queue: the request is answered with five payload
    bytes, so [filled > 0], yet the response is shed: the queue is left as
    it was and [ErrOverflow] is returned. *)
Lemma full_queue_not_enqueued :
  filled (snd (onEntries memBlockstore sampleRequest (initBuild sampleStore))) = 5 /\
  onMessage memBlockstore (decodeAs sampleRequest) encodeBlocks fullQueue []
    sampleStore = (Some ErrOverflow, (fullQueue, sampleStore)) /\
  ~ enqueued_iff_filled memBlockstore (decodeAs sampleRequest) encodeBlocks
      fullQueue [] sampleStore.
Proof.
  split; [reflexivity|]. split; [reflexivity|].
  intros Hclaim.
  destruct (Hclaim (mkMessage sampleRequest [] [])
              (mkBuild (mkMessage [] [hello] [dontHavePresence (wantHave "B" true)]) 5
                 sampleStore) eq_refl eq_refl) as [[_ Hsent] _].
  destruct (Hsent eq_refl) as [rBytes Hq].
  apply (f_equal (@length (list byte))) in Hq.
  vm_compute in Hq. discriminate Hq.
Qed.

Lemma have_entry_answer_witness :
  isHaveKind (wantHave "B" true) /\
  onEntries memBlockstore [wantBlock "A"] (initBuild sampleStore) =
    (None, mkBuild (mkMessage [] [hello] []) 5 sampleStore) /\
  Has memBlockstore sampleStore "B" = ((false, None), sampleStore) /\
  exists b2,
    onEntries memBlockstore sampleRequest (initBuild sampleStore) = (None, b2) /\
    BlockPresences (resp b2) = [dontHavePresence (wantHave "B" true)].
Proof.
  split; [reflexivity|]. split; [reflexivity|]. split; [reflexivity|].
  destruct (have_entry_answer memBlockstore [wantBlock "A"] (wantHave "B" true) []
              sampleStore (mkBuild (mkMessage [] [hello] []) 5 sampleStore)
              false sampleStore eq_refl eq_refl eq_refl)
    as (b2 & Hrun & _ & _ & _ & Hp & _).
  exists b2. split; [exact Hrun | exact Hp].
Defined.

Lemma store_error_policy_witness :
  decodeAs sampleRequest [] = (mkMessage sampleRequest [] [], None) /\
  onEntries getFails [] (initBuild tt) = (None, initBuild tt) /\
  onMessage getFails (decodeAs sampleRequest) encodeBlocks (mkSender []) [] tt =
    (Some storeDown, (mkSender [], tt)).
Proof.
  split; [reflexivity|]. split; [reflexivity|].
  destruct (store_error_policy getFails (decodeAs sampleRequest) encodeBlocks
              (mkSender []) [] tt (mkMessage sampleRequest [] [])
              [] (wantBlock "A") [wantHave "B" true] (initBuild tt)
              eq_refl eq_refl eq_refl) as [Hget _].
  apply (Hget eq_refl eq_refl [] storeDown tt eq_refl).
Defined.

(** C2 fails for [Has]: the store reports an error for [B], yet the
    request is answered and [onMessage] returns no error. *)
Lemma has_error_not_returned :
  Has (hasFails hello) tt "B" = ((false, Some storeDown), tt) /\
  onMessage (hasFails hello) (decodeAs sampleRequest) encodeBlocks (mkSender []) [] tt =
    (None, (mkSender [hello], tt)) /\
  ~ has_error_aborts (hasFails hello) (decodeAs sampleRequest) encodeBlocks
      (mkSender []) [] tt.
Proof.
  split; [reflexivity|]. split; [reflexivity|].
  intros Hclaim.
  specialize (Hclaim (mkMessage sampleRequest [] []) [wantBlock "A"] (wantHave "B" true) []
                (mkBuild (mkMessage [] [hello] []) 5 tt) false storeDown tt
                eq_refl eq_refl eq_refl eq_refl eq_refl).
  discriminate Hclaim.
Qed.

Lemma bigBlock_length : Z.of_nat (length bigBlock) = MaxSendMsgSize + 1.
Proof.
  unfold bigBlock. rewrite length_replicate, Z2Nat.id; [reflexivity|].
  unfold MaxSendMsgSize. lia.
Qed.

Lemma constStore_one (data : list byte) (c : cid) :
  onEntries (constStore data) [wantBlock c] (initBuild tt) =
    (None, mkBuild (mkMessage [] [data] []) (Z.of_nat (length data)) tt).
Proof.
  cbn [onEntries].
  rewrite (onEntry_fetch (constStore data) (wantBlock c) (initBuild tt) data tt);
    [reflexivity | reflexivity | reflexivity | reflexivity].
Qed.

Lemma constStore_two (data : list byte) (c c' : cid) :
  MaxSendMsgSize <= Z.of_nat (length data) ->
  onEntries (constStore data) [wantBlock c; wantBlock c'] (initBuild tt) =
    (None, mkBuild (mkMessage [] [data] [havePresence (wantBlock c')])
             (Z.of_nat (length data)) tt).
Proof.
  intros Hbig. cbn [onEntries].
  rewrite (onEntry_fetch (constStore data) (wantBlock c) (initBuild tt) data tt);
    [|reflexivity|reflexivity|reflexivity].
  rewrite onEntry_exhausted; [reflexivity | reflexivity | simpl; lia].
Qed.

Lemma payload_bytes_one (data : list byte) :
  payload_bytes [data] = Z.of_nat (length data).
Proof. unfold payload_bytes, fold_right. lia. Qed.

(** C3 fails: one stored block of 3 MiB + 1 bytes is sent whole. *)
Lemma payload_budget_exceeded :
  fst (onEntries (constStore bigBlock) [wantBlock "A"] (initBuild tt)) = None /\
  payload_bytes (Blocks (resp (snd
    (onEntries (constStore bigBlock) [wantBlock "A"] (initBuild tt))))) =
    MaxSendMsgSize + 1 /\
  ~ within_budget (constStore bigBlock) [wantBlock "A"] tt.
Proof.
  unfold within_budget. rewrite constStore_one.
  cbn [fst snd resp Blocks]. rewrite payload_bytes_one, bigBlock_length.
  split; [reflexivity|]. split; [reflexivity|]. lia.
Qed.

(** C4 fails: of two stored blocks of 3 MiB + 1 bytes the first is sent,
    so the prefix that is sent sums to more than the budget. *)
Lemma budget_prefix_exceeded :
  Forall isBlockKind [wantBlock "A"; wantBlock "B"] /\
  MaxSendMsgSize < payload_bytes [bigBlock; bigBlock] /\
  onEntries (constStore bigBlock) [wantBlock "A"; wantBlock "B"] (initBuild tt) =
    (None, mkBuild (mkMessage [] [bigBlock] [havePresence (wantBlock "B")])
             (MaxSendMsgSize + 1) tt) /\
  ~ budget_prefix (constStore bigBlock) [wantBlock "A"; wantBlock "B"] tt.
Proof.
  pose proof bigBlock_length as Hlen.
  split; [repeat constructor|]. split.
  { change [bigBlock; bigBlock] with ([bigBlock] ++ [bigBlock]).
    rewrite payload_bytes_app, payload_bytes_one. lia. }
  unfold budget_prefix.
  rewrite constStore_two by lia. rewrite Hlen. split; [reflexivity|].
  cbn [fst snd resp Blocks]. rewrite payload_bytes_one.
  intros (k & _ & Hsize & _). lia.
Qed.

Lemma payload_budget_soft_witness :
  onEntries memBlockstore sampleRequest (initBuild sampleStore) =
    (None, mkBuild (mkMessage [] [hello] [dontHavePresence (wantHave "B" true)]) 5
             sampleStore) /\
  payload_bytes [hello] = 5.
Proof.
  split; [reflexivity|].
  apply (payload_budget_soft memBlockstore sampleRequest sampleStore None
           (mkBuild (mkMessage [] [hello] [dontHavePresence (wantHave "B" true)]) 5
              sampleStore) eq_refl).
Defined.

Lemma budget_prefix_shortest_witness :
  Forall isBlockKind [wantBlock "A"; wantBlock "A"] /\
  onEntries memBlockstore [wantBlock "A"; wantBlock "A"] (initBuild sampleStore) =
    (None, mkBuild (mkMessage [] [hello; hello] []) 10 sampleStore) /\
  exists k : nat,
    (k <= 2)%nat /\
    [hello; hello] =
      fst (fetchAll memBlockstore
             (map Block (take k [wantBlock "A"; wantBlock "A"])) sampleStore).
Proof.
  split; [repeat constructor|]. split; [reflexivity|].
  destruct (budget_prefix_shortest memBlockstore [wantBlock "A"; wantBlock "A"]
              sampleStore (mkBuild (mkMessage [] [hello; hello] []) 10 sampleStore)
              ltac:(repeat constructor) eq_refl) as (k & Hk & Hb & _).
  exists k. split; [exact Hk | exact Hb].
Defined.

(** ** Variable-length integers *)

Lemma Z_of_byte_of_Z z : Z_of_byte (byte_of_Z z) = z mod 256.
Proof.
  unfold Z_of_byte, byte_of_Z.
  assert (Hr : 0 <= z mod 256 < 256) by (apply Z.mod_pos_bound; lia).
  destruct (Byte.of_N (Z.to_N (z mod 256))) as [b|] eqn:Hb.
  - apply Byte.to_of_N in Hb. rewrite Hb. lia.
  - apply Byte.of_N_None_iff in Hb. lia.
Qed.

Lemma Z_of_byte_range b : 0 <= Z_of_byte b < 256.
Proof.
  unfold Z_of_byte. pose proof (Byte.to_N_bounded b). lia.
Qed.

(** A value below [2^s] shares no bit with a value shifted by [s]. *)
Lemma lor_shiftl_add a v s :
  0 <= s -> 0 <= a < 2 ^ s -> 0 <= v ->
  Z.lor a (Z.shiftl v s) = a + v * 2 ^ s.
Proof.
  intros Hs Ha Hv.
  rewrite <- Z.lxor_lor, <- Z.add_nocarry_lxor, Z.shiftl_mul_pow2; try lia.
  all: apply Z.bits_inj'; intros n Hn; rewrite Z.land_spec, Z.bits_0.
  all: destruct (Z.lt_ge_cases n s) as [Hlo|Hhi].
  all: try (rewrite (Z.shiftl_spec_low v s n Hlo); apply andb_false_r).
  all: assert (Hbit : Z.testbit a n = false);
    [|rewrite Hbit; reflexivity].
  all: destruct (Z.eq_dec a 0) as [->|Hne]; [apply Z.bits_0|].
  all: apply Z.bits_above_log2; [lia|].
  all: apply Z.lt_le_trans with s; [|exact Hhi].
  all: apply Z.log2_lt_pow2; lia.
Qed.

(** The continuation byte [byte(x) | 0x80] of [PutUvarint]. *)
Lemma continuation_byte y :
  128 <= (Z.lor y 128) mod 256 /\
  Z.land ((Z.lor y 128) mod 256) 127 = y mod 128.
Proof.
  change 256 with (2 ^ 8). change 128 with (2 ^ 7). split.
  - assert (Hbit : Z.testbit ((Z.lor y (2 ^ 7)) mod 2 ^ 8) 7 = true).
    { rewrite Z.mod_pow2_bits_low, Z.lor_spec, Z.pow2_bits_true by lia.
      apply orb_true_r. }
    apply Z.testbit_true in Hbit; [|lia].
    pose proof (Z.mod_pos_bound (Z.lor y (2 ^ 7)) (2 ^ 8) ltac:(lia)) as Hr.
    set (b := Z.lor y (2 ^ 7) mod 2 ^ 8) in *.
    destruct (Z.lt_ge_cases b (2 ^ 7)) as [Hlt|Hge]; [|lia].
    rewrite Z.div_small in Hbit by lia. discriminate.
  - change 127 with (Z.ones 7). rewrite Z.land_ones by lia.
    apply Z.bits_inj'. intros n Hn.
    destruct (Z.lt_ge_cases n 7) as [Hlo|Hhi].
    + rewrite !Z.mod_pow2_bits_low, Z.lor_spec, Z.pow2_bits_false by lia.
      apply orb_false_r.
    + rewrite !Z.mod_pow2_bits_high by lia. reflexivity.
Qed.

Lemma u64_small z : 0 <= z < 2 ^ 64 -> u64 z = z.
Proof. intros Hz. unfold u64. now apply Z.mod_small. Qed.

Lemma lor_u64_shiftl a v s :
  0 <= s -> 0 <= a < 2 ^ s -> 0 <= v -> a + v * 2 ^ s < 2 ^ 64 ->
  Z.lor a (u64 (Z.shiftl v s)) = a + v * 2 ^ s.
Proof.
  intros Hs Ha Hv Hfit.
  assert (0 < 2 ^ s) by (apply Z.pow_pos_nonneg; lia).
  rewrite u64_small by (rewrite Z.shiftl_mul_pow2 by lia; nia).
  now apply lor_shiftl_add.
Qed.

Lemma pow2_below_64 k : 0 <= k -> 2 ^ k < 2 ^ 64 -> k < 64.
Proof. intros Hk Hlt. apply (Z.pow_lt_mono_r_iff 2); lia. Qed.

Lemma PutUvarint_loop_S fuel x :
  PutUvarint_loop (S fuel) x =
    if 128 <=? x
    then byte_of_Z (Z.lor x 128) :: PutUvarint_loop fuel (Z.shiftr x 7)
    else [byte_of_Z x].
Proof. reflexivity. Qed.

Section VarintRoundTrip.

Variable b : Slice.

(** One iteration of [Uvarint] on the last byte of an encoding. *)
Lemma Uvarint_step_last fuelU i acc y :
  0 <= i <= 9 -> 0 <= acc < 2 ^ (7 * i) -> 0 <= y < 128 ->
  acc + y * 2 ^ (7 * i) < 2 ^ 64 ->
  i < slen b -> sget b i = byte_of_Z y ->
  Uvarint_loop (S fuelU) b i acc (7 * i) = (acc + y * 2 ^ (7 * i), i + 1).
Proof.
  intros Hi Hacc Hy Hfit Hlen Hbyte. cbn [Uvarint_loop]. unfold MaxVarintLen64.
  rewrite Hbyte, Z_of_byte_of_Z, (Z.mod_small y 256) by lia.
  destruct (Z.leb_spec (slen b) i); [lia|].
  destruct (Z.eqb_spec i 10); [lia|].
  destruct (Z.ltb_spec y 128); [|lia].
  assert (Hover : (i =? 10 - 1) && (1 <? y) = false).
  { destruct (Z.eqb_spec i (10 - 1)) as [->|]; [|reflexivity].
    destruct (Z.ltb_spec 1 y); [|reflexivity].
    change (7 * (10 - 1)) with 63 in *.
    assert (0 <= acc) by lia. lia. }
  rewrite Hover. f_equal. apply lor_u64_shiftl; lia.
Qed.

(** One iteration of [Uvarint] on a continuation byte. *)
Lemma Uvarint_step_cont fuelU i acc y :
  0 <= i -> 0 <= acc < 2 ^ (7 * i) -> 128 <= y ->
  acc + y * 2 ^ (7 * i) < 2 ^ 64 ->
  i < slen b -> sget b i = byte_of_Z (Z.lor y 128) ->
  i <= 8 /\
  Uvarint_loop (S fuelU) b i acc (7 * i) =
    Uvarint_loop fuelU b (i + 1) (acc + y mod 128 * 2 ^ (7 * i)) (7 * (i + 1)).
Proof.
  intros Hi Hacc Hy Hfit Hlen Hbyte.
  assert (Hpow : 0 < 2 ^ (7 * i)) by (apply Z.pow_pos_nonneg; lia).
  assert (Hi8 : i <= 8).
  { assert (Hlt : 2 ^ (7 * i + 7) < 2 ^ 64).
    { rewrite Z.pow_add_r by lia. change (2 ^ 7) with 128. nia. }
    apply pow2_below_64 in Hlt; lia. }
  split; [exact Hi8|].
  cbn [Uvarint_loop]. unfold MaxVarintLen64.
  rewrite Hbyte, Z_of_byte_of_Z.
  destruct (continuation_byte y) as [Hhigh Hlow]. rewrite Hlow.
  destruct (Z.leb_spec (slen b) i); [lia|].
  destruct (Z.eqb_spec i 10); [lia|].
  destruct (Z.ltb_spec (Z.lor y 128 mod 256) 128); [lia|].
  pose proof (Z.mod_pos_bound y 128 ltac:(lia)) as Hr.
  rewrite lor_u64_shiftl by (try lia; nia).
  f_equal. lia.
Qed.

(** [Uvarint] reads back what [PutUvarint] wrote, from position [i] of the
    buffer on, whatever follows the encoding. *)
Lemma Uvarint_loop_PutUvarint_loop fuelP :
  forall y i acc fuelU,
    0 <= i <= 9 -> 0 <= acc < 2 ^ (7 * i) -> 0 <= y < 128 ^ Z.of_nat (S fuelP) ->
    acc + y * 2 ^ (7 * i) < 2 ^ 64 ->
    (length (PutUvarint_loop (S fuelP) y) <= fuelU)%nat ->
    i + Z.of_nat (length (PutUvarint_loop (S fuelP) y)) <= slen b ->
    (forall j, (j < length (PutUvarint_loop (S fuelP) y))%nat ->
       sget b (i + Z.of_nat j) = nth j (PutUvarint_loop (S fuelP) y) Byte.x00) ->
    Uvarint_loop fuelU b i acc (7 * i) =
      (acc + y * 2 ^ (7 * i), i + Z.of_nat (length (PutUvarint_loop (S fuelP) y))).
Proof.
  induction fuelP as [|fuelP IH]; intros y i acc fuelU Hi Hacc Hy Hfit Hfuel Hlen Hbytes.
  all: assert (Hpow : 0 < 2 ^ (7 * i)) by (apply Z.pow_pos_nonneg; lia).
  all: rewrite (PutUvarint_loop_S _ y) in Hfuel, Hlen, Hbytes |- *.
  all: destruct (Z.leb_spec 128 y) as [Hcont|Hlast].
  - change (128 ^ Z.of_nat 1) with 128 in Hy. lia.
  - destruct fuelU as [|fuelU]; [simpl in Hfuel; lia|].
    simpl in Hlen. specialize (Hbytes 0%nat ltac:(simpl; lia)).
    rewrite Z.add_0_r in Hbytes. simpl in Hbytes. simpl length.
    apply Uvarint_step_last; try lia. exact Hbytes.
  - destruct fuelU as [|fuelU]; [simpl in Hfuel; lia|].
    cbn [length] in Hfuel, Hlen, Hbytes |- *.
    pose proof (Hbytes 0%nat ltac:(lia)) as Hb0.
    rewrite Z.add_0_r in Hb0. cbn [nth] in Hb0.
    destruct (Uvarint_step_cont fuelU i acc y) as [Hi8 Hstep]; try lia; [exact Hb0|].
    pose proof (Z.mod_pos_bound y 128 ltac:(lia)) as Hr.
    pose proof (Z.div_mod y 128 ltac:(lia)) as Hdm.
    assert (Hpow7 : 2 ^ (7 * (i + 1)) = 128 * 2 ^ (7 * i)).
    { replace (7 * (i + 1)) with (7 + 7 * i) by lia.
      rewrite Z.pow_add_r by lia. reflexivity. }
    rewrite Hstep, Z.shiftr_div_pow2 by lia. change (2 ^ 7) with 128.
    rewrite Z.shiftr_div_pow2 in Hfuel, Hlen, Hbytes by lia.
    change (2 ^ 7) with 128 in Hfuel, Hlen, Hbytes.
    rewrite (IH (y / 128) (i + 1) (acc + y mod 128 * 2 ^ (7 * i)) fuelU).
    + f_equal; [rewrite Hpow7; nia | cbn [length]; lia].
    + lia.
    + rewrite Hpow7. nia.
    + split; [apply Z.div_pos; lia|].
      apply Z.div_lt_upper_bound; [lia|].
      replace (Z.of_nat (S (S fuelP))) with (1 + Z.of_nat (S fuelP)) in Hy by lia.
      rewrite Z.pow_add_r in Hy by lia. lia.
    + rewrite Hpow7. nia.
    + lia.
    + lia.
    + intros j Hj. specialize (Hbytes (S j) ltac:(lia)).
      cbn [nth] in Hbytes. rewrite <- Hbytes. f_equal. lia.
  - destruct fuelU as [|fuelU]; [simpl in Hfuel; lia|].
    simpl in Hlen. specialize (Hbytes 0%nat ltac:(simpl; lia)).
    rewrite Z.add_0_r in Hbytes. simpl in Hbytes. simpl length.
    apply Uvarint_step_last; try lia. exact Hbytes.
Qed.

End VarintRoundTrip.

Lemma PutUvarint_loop_length fuel y :
  (length (PutUvarint_loop fuel y) <= fuel)%nat.
Proof.
  revert y. induction fuel as [|fuel IH]; intros y; [simpl; lia|].
  rewrite PutUvarint_loop_S. destruct (128 <=? y); cbn [length]; [|lia].
  specialize (IH (Z.shiftr y 7)). lia.
Qed.

Lemma PutUvarint_length x : (1 <= length (PutUvarint x) <= 10)%nat.
Proof.
  unfold PutUvarint. split; [|apply PutUvarint_loop_length].
  rewrite PutUvarint_loop_S. destruct (128 <=? u64 x); cbn [length]; lia.
Qed.

(** Round trip: a buffer that starts with [PutUvarint x] decodes to [x] and
    to the length of the encoding, whatever follows. *)
Lemma Uvarint_PutUvarint x b rest :
  0 <= x < 2 ^ 64 ->
  holds b (PutUvarint x ++ rest) ->
  Uvarint b = (x, Z.of_nat (length (PutUvarint x))).
Proof.
  intros Hx [Hlen Hbytes]. unfold Uvarint.
  rewrite length_app in Hlen.
  pose proof (PutUvarint_length x) as Hk.
  unfold PutUvarint in *. rewrite (u64_small x Hx) in *.
  set (enc := PutUvarint_loop 10 x) in *.
  pose proof (Uvarint_loop_PutUvarint_loop b 9 x 0 0 11) as Hloop.
  fold enc in Hloop.
  change (7 * 0) with 0 in Hloop. change (2 ^ 0) with 1 in Hloop.
  rewrite Z.mul_1_r, !Z.add_0_l in Hloop. apply Hloop; try lia.
  intros j Hj. rewrite Z.add_0_l, Hbytes by (rewrite length_app; lia).
  now rewrite app_nth1.
Qed.

(** ** The frame reader

    In what follows [M] is the value of [bitswap.MaxBlockSize]. *)

Lemma u64_nonneg z : 0 <= u64 z.
Proof. unfold u64. apply Z.mod_pos_bound. lia. Qed.

Lemma Uvarint_loop_bounds fuel b i x s n k :
  0 <= i <= MaxVarintLen64 -> 0 <= x ->
  Uvarint_loop fuel b i x s = (n, k) ->
  k <= MaxVarintLen64 /\ 0 <= n.
Proof.
  revert i x s.
  induction fuel as [|fuel IH]; intros i x s Hi Hx; simpl;
    unfold MaxVarintLen64 in *.
  - intros [= Hn Hk]. lia.
  - destruct (slen b <=? i); [intros [= Hn Hk]; lia|].
    destruct (Z.eqb_spec i 10); [intros [= Hn Hk]; lia|].
    destruct (Z_of_byte (sget b i) <? 128).
    + destruct ((i =? 10 - 1) && (1 <? Z_of_byte (sget b i)));
        intros [= Hn Hk]; [lia|].
      split; [lia|]. rewrite <- Hn.
      apply Z.lor_nonneg. split; [lia | apply u64_nonneg].
    + apply IH; [lia|].
      apply Z.lor_nonneg. split; [lia | apply u64_nonneg].
Qed.

Lemma Uvarint_bounds b n k :
  Uvarint b = (n, k) -> k <= MaxVarintLen64 /\ 0 <= n.
Proof. apply Uvarint_loop_bounds; unfold MaxVarintLen64; lia. Qed.

Section ReaderInvariant.

Context {H : Type}.
Variable onMsg : list byte -> H -> option error * H.
Variable M : Z.
Hypothesis M_fits : M + MaxVarintLen64 < 2 ^ 64.

(** The header branch of the loop, when the prefix is accepted. *)
Lemma header_buffer (b1 : Slice) nextLen intLen :
  Uvarint b1 = (nextLen, intLen) -> 0 < intLen -> nextLen <= M ->
  let b2 := if slen b1 <? nextLen then make_copy (u64 (intLen + nextLen)) b1 else b1 in
  slen b1 <= slen b2 /\
  nextLen <= slen b2 /\
  u64 (nextLen + intLen) = nextLen + intLen /\
  (slen b1 < nextLen ->
     slen b2 = intLen + nextLen /\
     forall i, 0 <= i < slen b1 -> sget b2 i = sget b1 i).
Proof.
  intros Hdec Hlen Hok. destruct (Uvarint_bounds _ _ _ Hdec) as [Hk Hn].
  assert (Hsum : 0 <= intLen + nextLen < 2 ^ 64) by lia.
  cbv zeta. destruct (Z.ltb_spec (slen b1) nextLen) as [Hgrow|Hkeep]; simpl.
  - rewrite (u64_small _ Hsum). rewrite u64_small by lia.
    repeat split; try lia.
    intros i Hi. destruct (Z.ltb_spec i (Z.min (intLen + nextLen) (slen b1)));
      [reflexivity|lia].
  - rewrite u64_small by lia. repeat split; lia.
Qed.

Lemma readStep_inv r h ev st r' h' :
  reader_inv r ->
  readStep M onMsg r h ev = (st, r', h') ->
  reader_inv r' /\ slen (buf r) <= slen (buf r').
Proof.
  intros [Hinit Hbody]. unfold reader_inv.
  destruct ev as [data| | |]; simpl;
    try (intros [= <- <- <-]; split; [split; assumption | lia]).
  destruct (Z.eqb_spec (msgLen r) 0) as [Hhdr|Hacc].
  - destruct (Uvarint _) as [nextLen intLen] eqn:Hdec.
    destruct (Z.leb_spec intLen 0).
    { intros [= <- <- <-]. simpl. lia. }
    destruct (Z.ltb_spec M nextLen).
    { intros [= <- <- <-]. simpl. lia. }
    destruct (header_buffer _ _ _ Hdec ltac:(lia) ltac:(lia))
      as (Hgrow & Hfit & Hsum & _).
    simpl in Hgrow, Hfit. simpl. rewrite Hsum.
    set (b2 := if slen (buf r) <? nextLen then _ else _) in *.
    destruct (_ =? _).
    + destruct (onMsg _ h) as [[er|] h1]; intros [= <- <- <-]; simpl; lia.
    + intros [= <- <- <-]; simpl. lia.
  - simpl. destruct (_ =? _).
    + destruct (onMsg _ h) as [[er|] h1]; intros [= <- <- <-]; simpl; lia.
    + intros [= <- <- <-]; simpl. lia.
Qed.

Lemma readRun_inv evs r h st r' h' :
  reader_inv r ->
  readRun M onMsg evs r h = (st, r', h') ->
  reader_inv r' /\ slen (buf r) <= slen (buf r').
Proof.
  revert r h. induction evs as [|ev evs IH]; intros r h Hinv; simpl.
  - intros [= <- <- <-]. split; [assumption|lia].
  - destruct (readStep M onMsg r h ev) as [[st1 r1] h1] eqn:Hstep.
    destruct (readStep_inv _ _ _ _ _ _ Hinv Hstep) as [Hinv1 Hle1].
    destruct st1; try (intros [= <- <- <-]; now split).
    intros Hrun. destruct (IH _ _ Hinv1 Hrun) as [Hinv2 Hle2].
    split; [assumption|lia].
Qed.

(** X2: what holds of the assembly buffer at every point of the loop: it
    never shrinks, so it keeps at least its initial size, and once a
    header is parsed it is at least as long as the declared body.  The
    size limit must leave room for the prefix below [2^64]. *)
Lemma buffer_holds_body evs h st r h' :
  readLoop M onMsg evs h = (st, r, h') ->
  initBufSize <= slen (buf r) /\
  (msgLen r <> 0 -> msgLen r - prefixLen r <= slen (buf r)).
Proof.
  intros Hrun. apply (readRun_inv evs initReader h st r h'); [|exact Hrun].
  split; simpl; [lia|congruence].
Qed.

End ReaderInvariant.

Section ReaderFacts.

Context {H : Type}.
Variable onMsg : list byte -> H -> option error * H.

(** A larger limit accepts whatever a smaller one accepted. *)
Lemma readStep_limit_mono M M' r h ev r' h' :
  M <= M' ->
  readStep M onMsg r h ev = (Running, r', h') ->
  readStep M' onMsg r h ev = (Running, r', h').
Proof.
  intros Hle. destruct ev as [data| | |]; simpl; try (intros; assumption).
  destruct (msgLen r =? 0); [|intros; assumption].
  destruct (Uvarint _) as [nextLen intLen].
  destruct (intLen <=? 0); [intros; assumption|].
  destruct (Z.ltb_spec M nextLen); [discriminate|].
  destruct (Z.ltb_spec M' nextLen); [lia|].
  intros; assumption.
Qed.

Lemma readRun_limit_mono M M' evs r h r' h' :
  M <= M' ->
  readRun M onMsg evs r h = (Running, r', h') ->
  readRun M' onMsg evs r h = (Running, r', h').
Proof.
  intros Hle. revert r h.
  induction evs as [|ev evs IH]; intros r h; simpl; [intros; assumption|].
  destruct (readStep M onMsg r h ev) as [[st r1] h1] eqn:Hstep.
  destruct st.
  - rewrite (readStep_limit_mono M M' _ _ _ _ _ Hle Hstep). apply IH.
  - discriminate.
  - discriminate.
Qed.

Lemma readLoop_limit_mono M M' evs h r' h' :
  M <= M' ->
  readLoop M onMsg evs h = (Running, r', h') ->
  readLoop M' onMsg evs h = (Running, r', h').
Proof. unfold readLoop. apply readRun_limit_mono. Qed.

End ReaderFacts.

(** *** Aligned deliveries *)

Lemma holds_nil b : 0 <= slen b -> holds b [].
Proof. intros Hb. split; [simpl; lia|]. intros j Hj. simpl in Hj. lia. Qed.

Lemma holds_store_at b have c :
  holds b have ->
  Z.of_nat (length have) + Z.of_nat (length c) <= slen b ->
  holds (store_at b (Z.of_nat (length have)) c) (have ++ c).
Proof.
  intros [Hlen Hbytes] Hfit. split; [rewrite length_app; simpl; lia|].
  intros j Hj. rewrite length_app in Hj. simpl.
  destruct (Z.leb_spec (Z.of_nat (length have)) (Z.of_nat j)) as [Hin|Hout]; simpl.
  - destruct (Z.ltb_spec (Z.of_nat j) (Z.of_nat (length have) + Z.of_nat (length c)));
      [|lia].
    rewrite app_nth2 by lia. f_equal. lia.
  - rewrite app_nth1 by lia. apply Hbytes. lia.
Qed.

Lemma slice_holds b l (lo : nat) :
  holds b l -> (lo <= length l)%nat ->
  slice b (Z.of_nat lo) (Z.of_nat (length l)) = drop lo l.
Proof.
  intros [_ Hbytes] Hlo. unfold slice.
  replace (Z.to_nat (Z.of_nat (length l) - Z.of_nat lo)) with (length l - lo)%nat by lia.
  apply (nth_ext _ _ Byte.x00 Byte.x00).
  - rewrite length_map, length_seq, length_drop. reflexivity.
  - intros n Hn. rewrite length_map, length_seq in Hn.
    rewrite (nth_indep _ Byte.x00 (sget b (Z.of_nat lo + Z.of_nat 0)))
      by (rewrite length_map, length_seq; exact Hn).
    rewrite (map_nth (fun i => sget b (Z.of_nat lo + Z.of_nat i))), seq_nth by exact Hn.
    rewrite nth_skipn, <- Hbytes by lia. f_equal. lia.
Qed.

Lemma readInto_fits r c :
  Z.of_nat (length c) <= slen (buf r) - pos r -> readInto r c = c.
Proof.
  intros Hfit. unfold readInto.
  destruct (Z.leb_spec (Z.of_nat (length c)) (slen (buf r) - pos r)); [reflexivity|lia].
Qed.

Lemma concat_nonempty (chunks : list (list byte)) :
  chunks <> [] -> Forall (fun c => c <> []) chunks ->
  (1 <= length (concat chunks))%nat.
Proof.
  intros Hne Hall. destruct chunks as [|c cs]; [contradiction|].
  inversion Hall as [|? ? Hc _]; subst. simpl. rewrite length_app.
  destruct c; [contradiction|simpl; lia].
Qed.

Lemma frame_length body :
  length (frame body) =
    (length (PutUvarint (Z.of_nat (length body))) + length body)%nat.
Proof. unfold frame. apply length_app. Qed.

(** X22: a frame whose prefix, received whole by a reader that awaits a
    header, encodes a length above the limit: the connection is closed and
    the processor is not called, whatever it is and whatever is read
    next. *)
Lemma oversized_prefix_rejected {H : Type} (onMsg : list byte -> H -> option error * H)
    M r h n rest evs :
  msgLen r = 0 -> pos r = 0 ->
  Z.of_nat (length (PutUvarint n ++ rest)) <= slen (buf r) ->
  0 <= n < 2 ^ 64 -> M < n ->
  exists r',
    readRun M onMsg (ReadData (PutUvarint n ++ rest) :: evs) r h = (Closed, r', h).
Proof.
  intros Hhdr Hpos Hfit Hn Hbig.
  pose proof (PutUvarint_length n) as Hk.
  assert (Hholds : holds (store_at (buf r) (pos r) (PutUvarint n ++ rest))
                     (PutUvarint n ++ rest)).
  { rewrite Hpos. apply (holds_store_at (buf r) [] (PutUvarint n ++ rest));
      [apply holds_nil; lia | simpl; lia]. }
  pose proof (Uvarint_PutUvarint n _ rest Hn Hholds) as Hdec.
  eexists. cbn [readRun]. unfold readStep.
  rewrite (readInto_fits r (PutUvarint n ++ rest)) by lia.
  rewrite Hhdr, Hdec. cbn [Z.eqb].
  destruct (Z.leb_spec (Z.of_nat (length (PutUvarint n))) 0); [lia|].
  destruct (Z.ltb_spec M n); [reflexivity|lia].
Qed.

(** *** Deliveries that are misframed *)

Section ReaderFailures.

Context {H : Type}.
Variable onMsg : list byte -> H -> option error * H.

(** X23: with a size limit of 4 MiB or more, a header that declares a body
    of exactly 4 MiB is accepted and leaves the buffer short of the frame:
    the body is not longer than the buffer, so the buffer is kept, while
    the frame with its prefix is four bytes longer than it. *)
Theorem buffer_short_of_frame M h :
  4194304 <= M ->
  exists r,
    readLoop M onMsg [ReadData (PutUvarint 4194304)] h = (Running, r, h) /\
    prefixLen r = 4 /\
    msgLen r = 4194308 /\
    slen (buf r) = 4194304 /\
    slen (buf r) < msgLen r.
Proof.
  intros HM.
  exists (mkReader (store_at (make initBufSize) 0 (PutUvarint 4194304)) 4 4 4194308).
  split.
  - apply (readLoop_limit_mono onMsg 4194304 M); [exact HM|].
    vm_compute. reflexivity.
  - vm_compute. repeat split; reflexivity.
Qed.

End ReaderFailures.

Lemma buffer_short_of_frame_witness :
  4194304 <= 4 * 1024 * 1024 /\
  exists r,
    readLoop (4 * 1024 * 1024) record_body [ReadData (PutUvarint 4194304)] [] =
      (Running, r, []) /\
    slen (buf r) < msgLen r.
Proof.
  split; [lia|].
  destruct (buffer_short_of_frame record_body (4 * 1024 * 1024) [] ltac:(lia))
    as (r & Hrun & _ & _ & _ & Hshort).
  exists r. split; [exact Hrun | exact Hshort].
Defined.

(** C1 on one frame of 128 bytes delivered one byte per read: the first
    byte of the two-byte prefix is decoded on its own, against the zero
    byte that follows it in the fresh buffer, as the prefix of an empty
    frame.  The processor is handed an empty body and then 65 bytes of the
    real body, never the body itself. *)
Theorem split_prefix_misframed M :
  65 <= M ->
  exists r,
    readLoop M record_body (byte_by_byte (frame body128)) [] =
      (Running, r, [[]; replicate 65 Byte.x41]) /\
    [[]; replicate 65 Byte.x41] <> [body128].
Proof.
  intros HM.
  assert (Hrun : exists r,
             readLoop 65 record_body (byte_by_byte (frame body128)) [] =
               (Running, r, [[]; replicate 65 Byte.x41])).
  { assert (Hst : status_of (readLoop 65 record_body (byte_by_byte (frame body128)) [])
                  = Running) by (vm_compute; reflexivity).
    assert (Hseen : dispatched (readLoop 65 record_body (byte_by_byte (frame body128)) [])
                    = [[]; replicate 65 Byte.x41]) by (vm_compute; reflexivity).
    destruct (readLoop 65 record_body (byte_by_byte (frame body128)) [])
      as [[st r] seen].
    unfold status_of, dispatched in Hst, Hseen. simpl in Hst, Hseen. subst.
    now exists r. }
  destruct Hrun as [r Hrun]. exists r. split.
  - exact (readLoop_limit_mono record_body 65 M _ _ _ _ HM Hrun).
  - discriminate.
Qed.

Lemma split_prefix_misframed_witness :
  65 <= 2 * 1024 * 1024 /\
  dispatched (readLoop (2 * 1024 * 1024) record_body (byte_by_byte (frame body128)) [])
    = [[]; replicate 65 Byte.x41].
Proof.
  split; [lia|].
  destruct (split_prefix_misframed (2 * 1024 * 1024) ltac:(lia)) as (r & Hrun & _).
  rewrite Hrun. reflexivity.
Defined.

(** Two frames delivered by one read are lost as well: the count of bytes
    read overshoots the end of the first frame, and nothing is handed to
    the processor. *)
Lemma coalesced_frames_lost M :
  1 <= M ->
  exists r,
    readLoop M record_body [ReadData (frame [Byte.x61] ++ frame [Byte.x62])] [] =
      (Running, r, []) /\
    pos r = 4 /\ msgLen r = 2.
Proof.
  intros HM.
  pose (res := readLoop 1 record_body
                 [ReadData (frame [Byte.x61] ++ frame [Byte.x62])] []).
  assert (Hst : status_of res = Running) by (vm_compute; reflexivity).
  assert (Hseen : dispatched res = []) by (vm_compute; reflexivity).
  assert (Hpos : pos (snd (fst res)) = 4) by (vm_compute; reflexivity).
  assert (Hlen : msgLen (snd (fst res)) = 2) by (vm_compute; reflexivity).
  destruct res as [[st r] seen] eqn:Hres.
  unfold status_of, dispatched in Hst, Hseen. simpl in Hst, Hseen, Hpos, Hlen. subst.
  exists r. split; [|split; assumption].
  exact (readLoop_limit_mono record_body 1 M _ _ _ _ HM Hres).
Qed.

(** * Further properties of the code *)

(** ** The response writer *)

Lemma written_rest res (p : list byte) :
  written res p ++ drop (length (written res p)) p = p.
Proof.
  destruct res as [|n|n]; simpl.
  - now rewrite drop_all, app_nil_r.
  - rewrite length_take.
    destruct (Nat.le_gt_cases n (length p)).
    + rewrite Nat.min_l by lia. apply take_drop.
    + rewrite Nat.min_r, take_ge, drop_all by lia. apply app_nil_r.
  - rewrite length_take.
    destruct (Nat.le_gt_cases n (length p)).
    + rewrite Nat.min_l by lia. apply take_drop.
    + rewrite Nat.min_r, take_ge, drop_all by lia. apply app_nil_r.
Qed.

Lemma written_prefix_whole res x :
  takes_prefix res -> written res (PutUvarint x) = PutUvarint x.
Proof.
  pose proof (PutUvarint_length x) as Hk.
  destruct res as [|n|n]; simpl; [reflexivity| |contradiction].
  unfold MaxVarintLen64. intros Hn. apply take_ge. lia.
Qed.

Lemma takes_prefix_not_failed res : takes_prefix res -> write_failed res = false.
Proof. destruct res; simpl; [reflexivity|reflexivity|contradiction]. Qed.

Lemma on_wire_snoc (w0 : list (list byte)) (chunk : list byte) :
  concat (w0 ++ [chunk]) = concat w0 ++ chunk.
Proof. rewrite concat_app. simpl. now rewrite app_nil_r. Qed.

(** One iteration keeps the stream of bytes: what is on the wire followed
    by what is pending does not change. *)
Lemma writeStep_conserves w res st w' :
  qclosed w = false -> takes_prefix res ->
  writeStep w res = (st, w') ->
  on_wire w' ++ pending w' = on_wire w ++ pending w /\
  qclosed w' = false /\ st <> Stopped.
Proof.
  intros Hopen Hres. unfold writeStep, on_wire, pending.
  rewrite (takes_prefix_not_failed res Hres), Hopen.
  destruct (next w) as [|b nx] eqn:Hnext.
  - destruct (queue (sender w)) as [|msg rest] eqn:Hq.
    + intros [= <- <-]. rewrite Hnext, Hq.
      split; [reflexivity|]. split; [first [assumption|reflexivity]|discriminate].
    + intros [= <- <-]. cbn [next sender wire qclosed queue map concat].
      split; [|split; [first [assumption|reflexivity]|discriminate]].
      rewrite (written_prefix_whole res _ Hres), on_wire_snoc.
      unfold frame. now rewrite <- !app_assoc.
  - intros [= <- <-]. cbn [next sender wire qclosed].
    split; [|split; [first [assumption|reflexivity]|discriminate]].
    rewrite on_wire_snoc, <- !app_assoc.
    now rewrite (app_assoc (written res (b :: nx))), written_rest.
Qed.

Lemma writeRun_conserves ress :
  forall w st w',
    qclosed w = false -> Forall takes_prefix ress ->
    writeRun ress w = (st, w') ->
    on_wire w' ++ pending w' = on_wire w ++ pending w /\ st <> Stopped.
Proof.
  induction ress as [|res ress IH]; intros w st w' Hopen Hall; cbn [writeRun].
  - intros [= <- <-]. split; [reflexivity|discriminate].
  - inversion Hall as [|? ? Hres Hrest]; subst.
    destruct (writeStep w res) as [st1 w1] eqn:Hstep.
    destruct (writeStep_conserves w res st1 w1 Hopen Hres Hstep) as (Hcons & Hopen1 & Hrun).
    destruct st1.
    + intros Hnext. destruct (IH w1 st w' Hopen1 Hrest Hnext) as [Hcons' Hst].
      split; [congruence|assumption].
    + intros [= <- <-]. split; [first [assumption|reflexivity]|discriminate].
    + contradiction.
Qed.

Lemma writeRun_app ress1 ress2 w :
  writeRun (ress1 ++ ress2) w =
    match writeRun ress1 w with
    | (Writing, w') => writeRun ress2 w'
    | stop => stop
    end.
Proof.
  revert w. induction ress1 as [|res ress1 IH]; intros w; [reflexivity|].
  cbn [app writeRun]. destruct (writeStep w res) as [[| |] w1];
    [apply IH | reflexivity | reflexivity].
Qed.

Lemma PutUvarint_zero : PutUvarint 0 = [Byte.x00].
Proof. reflexivity. Qed.

(** With writes that take all they are offered, the queue is drained
    message by message; a closed channel then gets a last, empty frame. *)
Lemma writeRun_drain q :
  forall k wire0 closed,
    (2 * length q < k)%nat ->
    writeRun (replicate k WriteAll) (mkWriter [] (mkSender q) closed wire0) =
      (if closed then Stopped else Waiting,
       mkWriter [] (mkSender []) closed
         (wire0 ++ concat (map sent_whole q) ++
            (if closed then [[Byte.x00]] else []))).
Proof.
  induction q as [|msg q IH]; intros k wire0 closed Hk.
  - destruct k as [|k]; [simpl in Hk; lia|].
    cbn [replicate writeRun writeStep next sender queue qclosed wire map concat app written].
    destruct closed; cbn [app]; [|now rewrite app_nil_r].
    now rewrite PutUvarint_zero.
  - destruct k as [|k]; [simpl in Hk; lia|]. cbn [length] in Hk.
    cbn [replicate writeRun writeStep next sender queue qclosed wire written
           write_failed map concat].
    destruct msg as [|b msg].
    + rewrite IH by lia. cbn [sent_whole app]. now rewrite <- !app_assoc.
    + destruct k as [|k]; [lia|].
      cbn [replicate writeRun writeStep next sender queue qclosed wire written
             write_failed].
      rewrite drop_all, IH by lia. cbn [sent_whole app].
      now rewrite <- !app_assoc.
Qed.

Lemma sent_whole_aligned msg : aligned msg (sent_whole msg).
Proof.
  pose proof (PutUvarint_length (Z.of_nat (length msg))) as Hk.
  unfold aligned, sent_whole. cbn [hd]. split; [|split; [|lia]].
  - unfold frame. destruct msg; cbn [concat]; now rewrite ?app_nil_r.
  - constructor.
    + intros Hnil. rewrite Hnil in Hk. simpl in Hk. lia.
    + destruct msg; constructor; [discriminate|constructor].
Qed.

(** X17: while no write fails and each takes all it is offered or at least
    ten bytes of it, [writeLoop] neither loses, nor repeats, nor reorders a
    byte: what is on the stream followed by what is still to be written is
    the queued messages, each framed as varint length then body, in queue
    order; and the loop has not returned. *)
Theorem writer_keeps_byte_stream ress q st w :
  Forall takes_prefix ress ->
  writeLoop ress (mkSender q) false = (st, w) ->
  on_wire w ++ pending w = concat (map frame q) /\ st <> Stopped.
Proof.
  intros Hall Hrun.
  exact (writeRun_conserves ress (mkWriter [] (mkSender q) false []) st w
           eq_refl Hall Hrun).
Qed.

Lemma writer_keeps_byte_stream_witness :
  Forall takes_prefix [WriteAll; WriteSome 10; WriteAll] /\
  on_wire (snd (writeLoop [WriteAll; WriteSome 10; WriteAll]
                  (mkSender [hello; body128]) false)) ++
  pending (snd (writeLoop [WriteAll; WriteSome 10; WriteAll]
                  (mkSender [hello; body128]) false)) =
    concat (map frame [hello; body128]).
Proof.
  assert (Hall : Forall takes_prefix [WriteAll; WriteSome 10; WriteAll]).
  { repeat constructor; try (unfold MaxVarintLen64; simpl; lia). }
  split; [exact Hall|].
  apply (writer_keeps_byte_stream [WriteAll; WriteSome 10; WriteAll] [hello; body128]
           (fst (writeLoop [WriteAll; WriteSome 10; WriteAll]
                   (mkSender [hello; body128]) false)) _ Hall).
  now destruct (writeLoop _ _ _).
Defined.

(** X18: when every write takes all it is offered, more than two writes
    per queued message drain the queue: each message goes out as its
    varint prefix in one write and, unless it is empty, its body in the
    next, in queue order.  The loop then waits for the next message if the
    channel is open; if it was closed the loop writes one more prefix, the
    single byte 0 of an empty frame, and returns. *)
Theorem writer_drains_queue q k closed :
  (2 * length q < k)%nat ->
  writeLoop (replicate k WriteAll) (mkSender q) closed =
    (if closed then Stopped else Waiting,
     mkWriter [] (mkSender []) closed
       (concat (map sent_whole q) ++ (if closed then [[Byte.x00]] else []))).
Proof. intros Hk. unfold writeLoop. now rewrite writeRun_drain. Qed.

Lemma writer_drains_queue_witness :
  (2 * length [hello; []] < 5)%nat /\
  writeLoop (replicate 5 WriteAll) (mkSender [hello; []]) true =
    (Stopped,
     mkWriter [] (mkSender []) true
       [[Byte.x05]; hello; [Byte.x00]; [Byte.x00]]).
Proof.
  split; [simpl; lia|].
  rewrite (writer_drains_queue [hello; []] 5 true); [reflexivity | simpl; lia].
Defined.

(** X20: a write that reports an error ends [writeLoop] at once: the bytes
    that call took are the last on the stream, and neither the rest of
    the message nor the messages still queued are written, whatever the
    stream would have accepted afterwards. *)
Theorem write_error_stops ress1 n ress2 w w1 :
  writeRun ress1 w = (Writing, w1) ->
  next w1 <> [] \/ queue (sender w1) <> [] \/ qclosed w1 = true ->
  exists w2 chunk,
    writeRun (ress1 ++ WriteFail n :: ress2) w = (Stopped, w2) /\
    wire w2 = wire w1 ++ [chunk] /\ (length chunk <= n)%nat.
Proof.
  intros Hrun Hwork. rewrite writeRun_app, Hrun. cbn [writeRun]. unfold writeStep.
  cbn [write_failed written].
  destruct (next w1) as [|b nx] eqn:Hnext.
  - destruct (queue (sender w1)) as [|msg rest] eqn:Hq.
    + destruct (qclosed w1) eqn:Hc; [|destruct Hwork as [?|[?|?]]; congruence].
      eexists. eexists. split; [reflexivity|]. cbn [wire]. split; [reflexivity|].
      rewrite length_take. lia.
    + eexists. eexists. split; [reflexivity|]. cbn [wire]. split; [reflexivity|].
      rewrite length_take. lia.
  - eexists. eexists. split; [reflexivity|]. cbn [wire]. split; [reflexivity|].
    rewrite length_take. lia.
Qed.

Lemma write_error_stops_witness :
  writeRun [WriteAll] (mkWriter [] (mkSender [hello; body128]) false []) =
    (Writing, mkWriter hello (mkSender [body128]) false [[Byte.x05]]) /\
  exists w2 chunk,
    writeRun ([WriteAll] ++ WriteFail 2 :: [WriteAll; WriteAll])
      (mkWriter [] (mkSender [hello; body128]) false []) = (Stopped, w2) /\
    wire w2 = [[Byte.x05]] ++ [chunk] /\ (length chunk <= 2)%nat.
Proof.
  split; [reflexivity|].
  apply (write_error_stops [WriteAll] 2 [WriteAll; WriteAll]
           (mkWriter [] (mkSender [hello; body128]) false [])
           (mkWriter hello (mkSender [body128]) false [[Byte.x05]]) eq_refl).
  left. discriminate.
Defined.

(** X21: the count that [Write] returns for the length prefix is dropped:
    when the stream takes only [n] bytes of a prefix and reports no error,
    the rest of the prefix is never written.  The stream then carries the
    truncated prefix, the whole body and the frames of the later
    messages. *)
Theorem short_prefix_write_loses_bytes msg q n ress st w :
  (n < length (PutUvarint (Z.of_nat (length msg))))%nat ->
  Forall takes_prefix ress ->
  writeLoop (WriteSome n :: ress) (mkSender (msg :: q)) false = (st, w) ->
  on_wire w ++ pending w =
    take n (PutUvarint (Z.of_nat (length msg))) ++ msg ++ concat (map frame q) /\
  on_wire w ++ pending w <> concat (map frame (msg :: q)).
Proof.
  intros Hshort Hall. unfold writeLoop.
  cbn [writeRun writeStep next sender queue write_failed written wire qclosed app].
  intros Hrun.
  destruct (writeRun_conserves ress
              (mkWriter msg (mkSender q) false
                 [take n (PutUvarint (Z.of_nat (length msg)))])
              st w eq_refl Hall Hrun) as [Hcons _].
  unfold on_wire at 2 in Hcons. unfold pending at 2 in Hcons. cbn [wire next sender queue concat app] in Hcons.
  rewrite app_nil_r in Hcons.
  split; [exact Hcons|].
  rewrite Hcons. cbn [map concat]. unfold frame at 2. rewrite <- app_assoc.
  intros Heq. apply (f_equal (@length byte)) in Heq.
  rewrite !length_app, length_take in Heq. lia.
Qed.

Lemma short_prefix_write_loses_bytes_witness :
  (1 < length (PutUvarint (Z.of_nat (length body128))))%nat /\
  Forall takes_prefix [WriteAll] /\
  on_wire (snd (writeLoop [WriteSome 1; WriteAll] (mkSender [body128]) false)) ++
  pending (snd (writeLoop [WriteSome 1; WriteAll] (mkSender [body128]) false)) =
    take 1 (PutUvarint (Z.of_nat (length body128))) ++ body128 ++ concat (map frame []).
Proof.
  assert (Hshort : (1 < length (PutUvarint (Z.of_nat (length body128))))%nat)
    by (vm_compute; lia).
  split; [exact Hshort|]. split; [repeat constructor|].
  apply (short_prefix_write_loses_bytes body128 [] 1 [WriteAll]
           (fst (writeLoop [WriteSome 1; WriteAll] (mkSender [body128]) false)) _
           Hshort ltac:(repeat constructor)).
  now destruct (writeLoop _ _ _).
Defined.

(** ** The in-memory store, continued *)

Lemma store_Get_found s c blk :
  db s !! c = Some blk -> store_Get s c = (blk, None).
Proof. intros Hlook. unfold store_Get. now rewrite Hlook. Qed.

Lemma store_Get_missing s c :
  db s !! c = None -> store_Get s c = ([], Some StoreErrNotHave).
Proof. intros Hlook. unfold store_Get. now rewrite Hlook. Qed.

(** X12: [Get] and [Has] of the in-memory store agree: [Get] returns the
    stored bytes without error exactly when [Has] answers true, and
    otherwise fails with the store's own "not found" error, never with
    another one. *)
Theorem store_Get_agrees_with_Has (s : store) (c : cid) :
  (fst (store_Has s c) = true <-> snd (store_Get s c) = None) /\
  (fst (store_Has s c) = true -> db s !! c = Some (fst (store_Get s c))) /\
  (fst (store_Has s c) = false -> store_Get s c = ([], Some StoreErrNotHave)).
Proof.
  unfold store_Has, store_Get. destruct (db s !! c) as [blk|]; simpl.
  - repeat split; congruence.
  - repeat split; congruence.
Qed.

Section AddBlocks.

Variable Sum : list byte -> cid * option error.

Lemma Add_named s blk name :
  Sum blk = (name, None) ->
  Add Sum s blk = (name, mkStore (<[name := blk]> (db s))).
Proof. intros Hsum. unfold Add. now rewrite Hsum. Qed.

(** X13: [Add] then look up: when the hash names the block, [Add] returns
    that name, and afterwards [Has] of the name is true and [Get] returns
    the very bytes added; every other identifier is answered as before.
    Adding the same bytes again changes nothing, and [GetAll] shows the map
    with the one entry set.  When the hash fails,
    [Add] returns [cid.Undef] and the store is left as it was. *)
Theorem Add_then_lookup s blk name :
  Sum blk = (name, None) ->
  fst (Add Sum s blk) = name /\
  store_Has (snd (Add Sum s blk)) name = (true, None) /\
  store_Get (snd (Add Sum s blk)) name = (blk, None) /\
  (forall c, c <> name ->
     store_Has (snd (Add Sum s blk)) c = store_Has s c /\
     store_Get (snd (Add Sum s blk)) c = store_Get s c) /\
  Add Sum (snd (Add Sum s blk)) blk = Add Sum s blk /\
  GetAll (snd (Add Sum s blk)) = <[name := blk]> (GetAll s) /\
  (forall blk' name' err, Sum blk' = (name', Some err) -> Add Sum s blk' = (Undef, s)).
Proof.
  intros Hsum. rewrite (Add_named s blk name Hsum). cbn [fst snd].
  split; [reflexivity|].
  unfold store_Has, store_Get. cbn [db].
  rewrite lookup_insert_eq. split; [reflexivity|]. split; [reflexivity|].
  split; [|split; [|split]].
  - intros c Hne. now rewrite lookup_insert_ne by congruence.
  - rewrite (Add_named _ blk name Hsum). cbn [db]. now rewrite insert_insert_eq.
  - reflexivity.
  - intros blk' name' err Hfail. unfold Add. now rewrite Hfail.
Qed.

End AddBlocks.

Lemma Add_then_lookup_witness :
  nameOf "A" hello = ("A"%string, None) /\
  store_Get (snd (Add (nameOf "A") (NewMemStore ∅) hello)) "A" = (hello, None).
Proof.
  split; [reflexivity|].
  apply (Add_then_lookup (nameOf "A") (NewMemStore ∅) hello "A" eq_refl).
Defined.

(** ** The request processor, continued *)

Section ProcessorMore.

Context {S : Type}.
Variable bs : Blockstore S.
Variable Unmarshal : list byte -> Message * option error.
Variable Marshal : Message -> list byte * option error.

(** An entry adds one block, or one presence that names the entry's
    identifier, or nothing. *)
Lemma onEntry_one_answer e b err b' :
  onEntry bs e b = (err, b') ->
  exists ds ps,
    Blocks (resp b') = Blocks (resp b) ++ ds /\
    BlockPresences (resp b') = BlockPresences (resp b) ++ ps /\
    (length ds + length ps <= 1)%nat /\
    Forall (fun p => Cid p = Block e) ps /\
    Entries (resp b') = Entries (resp b).
Proof.
  unfold onEntry. intros Hstep.
  destruct (String.eqb _ _).
  - destruct (filled b <? MaxSendMsgSize).
    + destruct (Get bs (bstate b) (Block e)) as [[data [er|]] s'];
        inversion Hstep; subst; cbn.
      * exists [], []. rewrite !app_nil_r. repeat split; auto.
      * exists [data], []. rewrite !app_nil_r. repeat split; auto.
    + inversion Hstep; subst; cbn.
      exists [], [havePresence e]. rewrite !app_nil_r. repeat split; auto.
  - destruct (Has bs (bstate b) (Block e)) as [[has er] s'].
    destruct (bool_decide (er = None) && has);
      [|destruct (SendDontHave e)]; inversion Hstep; subst; cbn.
    + exists [], [havePresence e]. rewrite !app_nil_r. repeat split; auto.
    + exists [], [dontHavePresence e]. rewrite !app_nil_r. repeat split; auto.
    + exists [], []. rewrite !app_nil_r. repeat split; auto.
Qed.

Lemma onEntries_answers es :
  forall b err b',
    onEntries bs es b = (err, b') ->
    exists ds ps,
      Blocks (resp b') = Blocks (resp b) ++ ds /\
      BlockPresences (resp b') = BlockPresences (resp b) ++ ps /\
      (length ds + length ps <= length es)%nat /\
      Forall (fun p => exists e, In e es /\ Cid p = Block e) ps /\
      Entries (resp b') = Entries (resp b).
Proof.
  induction es as [|e es IH]; intros b err b' Hrun; cbn [onEntries] in Hrun.
  - inversion Hrun; subst. exists [], []. rewrite !app_nil_r.
    repeat split; auto.
  - destruct (onEntry bs e b) as [oe b1] eqn:Hstep.
    destruct (onEntry_one_answer _ _ _ _ Hstep) as (ds1 & ps1 & Hb1 & Hp1 & Hn1 & Hc1 & He1).
    assert (Hc1' : Forall (fun p => exists e0, In e0 (e :: es) /\ Cid p = Block e0) ps1).
    { eapply Forall_impl; [exact Hc1|]. intros p Hp. exists e. split; [now left|exact Hp]. }
    destruct oe as [er|].
    + inversion Hrun; subst. exists ds1, ps1. cbn [length].
      repeat split; auto. lia.
    + destruct (IH _ _ _ Hrun) as (ds2 & ps2 & Hb2 & Hp2 & Hn2 & Hc2 & He2).
      exists (ds1 ++ ds2), (ps1 ++ ps2).
      rewrite Hb2, Hp2, Hb1, Hp1, He2, He1, <- !app_assoc, !length_app. cbn [length].
      repeat split; auto; [lia|].
      apply Forall_app. split; [exact Hc1'|].
      eapply Forall_impl; [exact Hc2|]. intros p (e0 & Hin & Hp).
      exists e0. split; [now right|exact Hp].
Qed.

(** X10: the response answers each want-list entry at most once and
    answers nothing else: its blocks and presences together are no more
    than the entries of the request, every presence names the identifier
    of an entry of the request, and the response carries no want-list of
    its own. *)
Theorem one_answer_per_entry es (s : S) err b :
  onEntries bs es (initBuild s) = (err, b) ->
  (length (Blocks (resp b)) + length (BlockPresences (resp b)) <= length es)%nat /\
  Forall (fun p => exists e, In e es /\ Cid p = Block e) (BlockPresences (resp b)) /\
  Entries (resp b) = [].
Proof.
  intros Hrun.
  destruct (onEntries_answers es _ _ _ Hrun) as (ds & ps & Hb & Hp & Hn & Hc & He).
  cbn in Hb, Hp, He. rewrite Hb, Hp, He. repeat split; assumption.
Qed.

(** Have-kind entries leave the payload untouched and never fail. *)
Lemma have_entries_fill_nothing es :
  forall b err b',
    Forall isHaveKind es ->
    onEntries bs es b = (err, b') ->
    err = None /\ filled b' = filled b /\ Blocks (resp b') = Blocks (resp b).
Proof.
  induction es as [|e es IH]; intros b err b' Hall Hrun; cbn [onEntries] in Hrun.
  - inversion Hrun; subst. repeat split.
  - inversion Hall as [|? ? He Hes]; subst.
    destruct (Has bs (bstate b) (Block e)) as [[has er] s1] eqn:Hhas.
    rewrite (onEntry_have bs e b has er s1 He Hhas) in Hrun.
    destruct (IH _ _ _ Hes Hrun) as (Herr & Hf & Hb).
    cbn in Hf, Hb. repeat split; assumption.
Qed.

(** X9: a request whose entries are all Have-kind is never answered:
    whatever the store says about the identifiers, and even when
    presences were collected for all of them, [onMessage] returns the
    "no requested blocks available" error and enqueues nothing. *)
Theorem have_only_unsatisfiable ss body (s : S) m :
  Unmarshal body = (m, None) ->
  Forall isHaveKind (Entries m) ->
  exists s',
    onMessage bs Unmarshal Marshal ss body s = (Some ErrNotHave, (ss, s')).
Proof.
  intros Hdec Hall.
  rewrite (onMessage_decoded bs Unmarshal Marshal ss body s m Hdec).
  destruct (onEntries bs (Entries m) (initBuild s)) as [err b] eqn:Hrun.
  destruct (have_entries_fill_nothing _ _ _ _ Hall Hrun) as (-> & Hf & _).
  cbn in Hf. rewrite Hf. cbn. now exists (bstate b).
Qed.

(** X11: [onMessage] changes the queue only by appending one message, and
    only when it returns no error: whenever it returns an error, be it a
    decoding, store, encoding, overflow or unsatisfiable-request error,
    the queue is exactly as before. *)
Theorem onMessage_error_keeps_queue ss body (s : S) :
  (fst (onMessage bs Unmarshal Marshal ss body s) <> None ->
     fst (snd (onMessage bs Unmarshal Marshal ss body s)) = ss) /\
  (fst (onMessage bs Unmarshal Marshal ss body s) = None ->
     (length (queue ss) < queueCap)%nat /\
     exists rBytes,
       fst (snd (onMessage bs Unmarshal Marshal ss body s)) =
         mkSender (queue ss ++ [rBytes])).
Proof.
  unfold onMessage.
  destruct (Unmarshal body) as [m [er|]]; cbn; [split; [reflexivity|discriminate]|].
  destruct (onEntries bs (Entries m) (initBuild s)) as [[er|] b]; cbn;
    [split; [reflexivity|discriminate]|].
  destruct (0 <? filled b); cbn; [|split; [reflexivity|discriminate]].
  destruct (Marshal (resp b)) as [rBytes [er|]]; cbn;
    [split; [reflexivity|discriminate]|].
  unfold enqueue. destruct (Nat.ltb_spec (length (queue ss)) queueCap); cbn.
  - split; [intros Hne; now destruct Hne|]. intros _. split; [assumption|].
    now exists rBytes.
  - split; [reflexivity|discriminate].
Qed.

End ProcessorMore.

(** The in-memory store is never changed by a request. *)
Lemma memstore_unchanged es :
  forall b err b',
    onEntries memBlockstore es b = (err, b') -> bstate b' = bstate b.
Proof.
  induction es as [|e es IH]; intros b err b' Hrun; cbn [onEntries] in Hrun.
  - now inversion Hrun.
  - destruct (onEntry memBlockstore e b) as [oe b1] eqn:Hstep.
    assert (Hs : bstate b1 = bstate b).
    { revert Hstep. unfold onEntry. cbn [Has Get memBlockstore].
      destruct (String.eqb _ _).
      - destruct (filled b <? MaxSendMsgSize).
        + destruct (store_Get (bstate b) (Block e)) as [data [er|]];
            intros [= <- <-]; reflexivity.
        + intros [= <- <-]; reflexivity.
      - destruct (store_Has (bstate b) (Block e)) as [has er].
        destruct (bool_decide (er = None) && has); [|destruct (SendDontHave e)];
          intros [= <- <-]; reflexivity. }
    destruct oe as [er|].
    + inversion Hrun; subst. exact Hs.
    + rewrite (IH _ _ _ Hrun). exact Hs.
Qed.

Section MemStoreRequests.

Variable Unmarshal : list byte -> Message * option error.
Variable Marshal : Message -> list byte * option error.

(** X14: against the in-memory store, a Block-kind entry for an
    identifier that is not stored, reached while the budget is not used
    up, ends the whole request with the store's "not found" error:
    nothing is enqueued, although the entries before it were answered. *)
Theorem missing_block_aborts ss body (s : store) m pre e post b1 :
  Unmarshal body = (m, None) ->
  Entries m = pre ++ e :: post ->
  isBlockKind e ->
  db s !! Block e = None ->
  onEntries memBlockstore pre (initBuild s) = (None, b1) ->
  filled b1 < MaxSendMsgSize ->
  onMessage memBlockstore Unmarshal Marshal ss body s =
    (Some StoreErrNotHave, (ss, s)).
Proof.
  intros Hdec Hentries Hk Hmiss Hpre Hroom.
  pose proof (memstore_unchanged pre _ _ _ Hpre) as Hs. cbn in Hs.
  rewrite (onMessage_decoded memBlockstore Unmarshal Marshal ss body s m Hdec).
  rewrite Hentries, onEntries_app, Hpre. cbn [onEntries].
  rewrite (onEntry_fetch_error memBlockstore e b1 [] StoreErrNotHave s Hk Hroom).
  - reflexivity.
  - cbn [Get memBlockstore]. rewrite Hs, (store_Get_missing s _ Hmiss). reflexivity.
Qed.

Variable Sum : list byte -> cid * option error.

(** X15: a block put into the store by [Add] is served: a request with one
    Block-kind entry for the name that [Add] returned is answered with
    exactly the bytes added, and the encoded response goes to [enqueue],
    whose result is returned.  The block must not be empty: an empty block
    adds no payload byte, and the request then fails as unsatisfiable. *)
Theorem added_block_served ss body (s : store) blk name m e :
  Sum blk = (name, None) ->
  Unmarshal body = (m, None) ->
  Entries m = [e] -> isBlockKind e -> Block e = name ->
  (blk <> [] ->
     forall rBytes, Marshal (mkMessage [] [blk] []) = (rBytes, None) ->
       onMessage memBlockstore Unmarshal Marshal ss body (snd (Add Sum s blk)) =
         (fst (enqueue ss rBytes), (snd (enqueue ss rBytes), snd (Add Sum s blk)))) /\
  (blk = [] ->
     onMessage memBlockstore Unmarshal Marshal ss body (snd (Add Sum s blk)) =
       (Some ErrNotHave, (ss, snd (Add Sum s blk)))).
Proof.
  intros Hsum Hdec Hentries Hk Hname.
  rewrite (Add_named Sum s blk name Hsum). cbn [snd].
  rewrite (onMessage_decoded memBlockstore Unmarshal Marshal ss body _ m Hdec).
  rewrite Hentries. cbn [onEntries].
  rewrite (onEntry_fetch memBlockstore e _ blk (mkStore (<[name := blk]> (db s))) Hk).
  - cbn [filled resp bstate initBuild].
    change (addBlock emptyMessage blk) with (mkMessage [] [blk] []).
    split.
    + intros Hne rBytes Hmar.
      destruct (Z.ltb_spec 0 (0 + Z.of_nat (length blk))) as [_|Hzero].
      * rewrite Hmar. now destruct (enqueue ss rBytes).
      * destruct blk; [contradiction|cbn [length] in Hzero; lia].
    + intros ->. reflexivity.
  - cbn. unfold MaxSendMsgSize. lia.
  - cbn [Get memBlockstore bstate initBuild]. rewrite Hname.
    rewrite (store_Get_found _ name blk); [reflexivity|].
    cbn [db]. apply lookup_insert_eq.
Qed.

End MemStoreRequests.

Lemma one_answer_per_entry_witness :
  onEntries memBlockstore sampleRequest (initBuild sampleStore) =
    (None, mkBuild (mkMessage [] [hello] [dontHavePresence (wantHave "B" true)]) 5
             sampleStore) /\
  (length [hello] + length [dontHavePresence (wantHave "B" true)]
   <= length sampleRequest)%nat.
Proof.
  split; [reflexivity|].
  apply (one_answer_per_entry memBlockstore sampleRequest sampleStore None
           (mkBuild (mkMessage [] [hello] [dontHavePresence (wantHave "B" true)]) 5
              sampleStore) eq_refl).
Defined.

Lemma have_only_unsatisfiable_witness :
  decodeAs [wantHave "A" false] [] = (mkMessage [wantHave "A" false] [] [], None) /\
  Forall isHaveKind [wantHave "A" false] /\
  exists s',
    onMessage memBlockstore (decodeAs [wantHave "A" false]) encodeBlocks
      (mkSender []) [] sampleStore = (Some ErrNotHave, (mkSender [], s')).
Proof.
  split; [reflexivity|]. split; [repeat constructor|].
  apply (have_only_unsatisfiable memBlockstore (decodeAs [wantHave "A" false])
           encodeBlocks (mkSender []) [] sampleStore
           (mkMessage [wantHave "A" false] [] []) eq_refl).
  repeat constructor.
Defined.

Lemma onMessage_error_keeps_queue_witness :
  fst (onMessage memBlockstore (decodeAs [wantHave "A" false]) encodeBlocks
         (mkSender [hello]) [] sampleStore) <> None /\
  fst (snd (onMessage memBlockstore (decodeAs [wantHave "A" false]) encodeBlocks
              (mkSender [hello]) [] sampleStore)) = mkSender [hello].
Proof.
  assert (Herr : fst (onMessage memBlockstore (decodeAs [wantHave "A" false])
                        encodeBlocks (mkSender [hello]) [] sampleStore) <> None)
    by discriminate.
  split; [exact Herr|].
  apply (onMessage_error_keeps_queue memBlockstore (decodeAs [wantHave "A" false])
           encodeBlocks (mkSender [hello]) [] sampleStore); exact Herr.
Defined.

Lemma missing_block_aborts_witness :
  decodeAs [wantBlock "A"; wantBlock "B"] [] =
    (mkMessage [wantBlock "A"; wantBlock "B"] [] [], None) /\
  isBlockKind (wantBlock "B") /\
  db sampleStore !! Block (wantBlock "B") = None /\
  onEntries memBlockstore [wantBlock "A"] (initBuild sampleStore) =
    (None, mkBuild (mkMessage [] [hello] []) 5 sampleStore) /\
  onMessage memBlockstore (decodeAs [wantBlock "A"; wantBlock "B"]) encodeBlocks
    (mkSender []) [] sampleStore = (Some StoreErrNotHave, (mkSender [], sampleStore)).
Proof.
  split; [reflexivity|]. split; [reflexivity|]. split; [reflexivity|].
  split; [reflexivity|].
  apply (missing_block_aborts (decodeAs [wantBlock "A"; wantBlock "B"]) encodeBlocks
           (mkSender []) [] sampleStore (mkMessage [wantBlock "A"; wantBlock "B"] [] [])
           [wantBlock "A"] (wantBlock "B") []
           (mkBuild (mkMessage [] [hello] []) 5 sampleStore));
    try reflexivity.
Defined.

Lemma added_block_served_witness :
  nameOf "A" hello = ("A"%string, None) /\
  hello <> [] /\
  onMessage memBlockstore (decodeAs [wantBlock "A"]) encodeBlocks (mkSender []) []
    (snd (Add (nameOf "A") (NewMemStore ∅) hello)) =
  (None, (mkSender [hello], snd (Add (nameOf "A") (NewMemStore ∅) hello))).
Proof.
  split; [reflexivity|]. split; [discriminate|].
  destruct (added_block_served (decodeAs [wantBlock "A"]) encodeBlocks (nameOf "A")
              (mkSender []) [] (NewMemStore ∅) hello "A"
              (mkMessage [wantBlock "A"] [] []) (wantBlock "A")
              eq_refl eq_refl eq_refl eq_refl eq_refl) as [Hserved _].
  rewrite (Hserved ltac:(discriminate) hello eq_refl). reflexivity.
Defined.

(** ** The frame reader, continued *)

Section ReaderMore.

Context {H : Type}.
Variable onMsg : list byte -> H -> option error * H.
Variable M : Z.

Lemma readRun_split evs1 evs2 r h :
  readRun M onMsg (evs1 ++ evs2) r h =
    match readRun M onMsg evs1 r h with
    | (Running, r', h') => readRun M onMsg evs2 r' h'
    | stop => stop
    end.
Proof.
  revert r h. induction evs1 as [|ev evs1 IH]; intros r h; [reflexivity|].
  cbn [app readRun].
  destruct (readStep M onMsg r h ev) as [[[| |] r1] h1];
    [apply IH | reflexivity | reflexivity].
Qed.

(** X4: a read that times out changes nothing: the loop just reads again.
    Timeouts may therefore be struck out of any sequence of reads, wherever
    they fall, without changing how the loop ends, the reader's variables
    or what the processor was handed. *)
Theorem timeouts_transparent evs r h :
  readRun M onMsg evs r h =
    readRun M onMsg (List.filter (fun ev => negb (isTimeout ev)) evs) r h.
Proof.
  revert r h. induction evs as [|ev evs IH]; intros r h; [reflexivity|].
  destruct ev as [data| | |]; cbn [List.filter isTimeout negb readRun].
  - destruct (readStep M onMsg r h (ReadData data)) as [[[| |] r1] h1];
      [apply IH | reflexivity | reflexivity].
  - cbn [readStep]. apply IH.
  - reflexivity.
  - reflexivity.
Qed.

(** X5: the end of the stream and a failed read both end the loop without
    a call of the processor: wherever the reads before them left the
    reader, even in the middle of a frame, its variables and the
    processor's state stay as they were, and no later read is made.  Only
    the failed read closes the stream. *)
Theorem stream_end_stops evs rest r h r' h' :
  readRun M onMsg evs r h = (Running, r', h') ->
  readRun M onMsg (evs ++ ReadEOF :: rest) r h = (Returned, r', h') /\
  readRun M onMsg (evs ++ ReadError :: rest) r h = (Closed, r', h').
Proof.
  intros Hrun. rewrite !readRun_split, Hrun. split; reflexivity.
Qed.

(** A read while a body is being accumulated. *)
Lemma readStep_accumulate r h c :
  msgLen r <> 0 ->
  Z.of_nat (length c) <= slen (buf r) - pos r ->
  0 <= pos r + Z.of_nat (length c) < 2 ^ 64 ->
  readStep M onMsg r h (ReadData c) =
    let r2 := mkReader (store_at (buf r) (pos r) c) (pos r + Z.of_nat (length c))
                (prefixLen r) (msgLen r) in
    if pos r2 =? msgLen r2 then after_frame onMsg r2 h else (Running, r2, h).
Proof.
  intros Hacc Hfit Hpos. unfold readStep, after_frame.
  rewrite (readInto_fits r c Hfit).
  destruct (Z.eqb_spec (msgLen r) 0) as [|_]; [contradiction|].
  rewrite (u64_small _ Hpos). reflexivity.
Qed.

(** The read that brings the header of a frame that fits the buffer. *)
Lemma readStep_parse r h c n k :
  msgLen r = 0 ->
  Z.of_nat (length c) <= slen (buf r) - pos r ->
  Uvarint (store_at (buf r) (pos r) c) = (n, k) ->
  0 < k -> n <= M -> n <= slen (buf r) -> 0 <= n + k < 2 ^ 64 ->
  readStep M onMsg r h (ReadData c) =
    let r2 := mkReader (store_at (buf r) (pos r) c) (Z.of_nat (length c)) k (n + k) in
    if pos r2 =? msgLen r2 then after_frame onMsg r2 h else (Running, r2, h).
Proof.
  intros Hhdr Hfit Hdec Hk HM Hroom Hsum. unfold readStep, after_frame.
  rewrite (readInto_fits r c Hfit), Hhdr, Hdec. cbn [Z.eqb].
  destruct (Z.leb_spec k 0); [lia|].
  destruct (Z.ltb_spec M n); [lia|].
  cbn [slen store_at].
  destruct (Z.ltb_spec (slen (buf r)) n); [lia|].
  rewrite (u64_small _ Hsum). reflexivity.
Qed.

(** The rest of a frame, read after its header, for any processor. *)
Lemma body_completed chunks :
  forall r h have (k : nat),
    msgLen r <> 0 -> prefixLen r = Z.of_nat k ->
    (k <= length (have ++ concat chunks))%nat ->
    pos r = Z.of_nat (length have) -> holds (buf r) have ->
    msgLen r <= slen (buf r) -> msgLen r < 2 ^ 64 ->
    Forall (fun c => c <> []) chunks -> chunks <> [] ->
    msgLen r = Z.of_nat (length (have ++ concat chunks)) ->
    exists b',
      readRun M onMsg (map ReadData chunks) r h =
        after_frame onMsg (mkReader b' (msgLen r) (prefixLen r) (msgLen r)) h /\
      slice b' (prefixLen r) (msgLen r) = drop k (have ++ concat chunks) /\
      slen b' = slen (buf r).
Proof.
  induction chunks as [|c cs IH]; intros r h have k Hacc Hpre Hk Hpos Hholds
    Hroom Hmax Hall Hne Hlen; [contradiction|].
  inversion Hall as [|? ? Hc Hcs]; subst.
  cbn [concat] in Hlen, Hk |- *. rewrite !length_app in Hlen, Hk.
  cbn [map readRun].
  rewrite readStep_accumulate by (try assumption; lia). cbv zeta.
  cbn [pos msgLen].
  assert (Hholds' : holds (store_at (buf r) (pos r) c) (have ++ c)).
  { rewrite Hpos. apply holds_store_at; [assumption|lia]. }
  destruct cs as [|c' cs].
  - cbn [concat length] in Hlen, Hk |- *. rewrite app_nil_r.
    destruct (Z.eqb_spec (pos r + Z.of_nat (length c)) (msgLen r)) as [Heq|]; [|lia].
    exists (store_at (buf r) (pos r) c). rewrite Heq.
    split; [|split; [|reflexivity]].
    + unfold after_frame. cbn [buf prefixLen msgLen].
      destruct (onMsg _ h) as [[er|] h1]; reflexivity.
    + rewrite Hpre.
      replace (msgLen r) with (Z.of_nat (length (have ++ c)))
        by (rewrite length_app; lia).
      apply (slice_holds _ _ k Hholds'). rewrite length_app. lia.
  - pose proof (concat_nonempty (c' :: cs) ltac:(discriminate) Hcs) as Hrest.
    destruct (Z.eqb_spec (pos r + Z.of_nat (length c)) (msgLen r)); [lia|].
    destruct (IH (mkReader (store_at (buf r) (pos r) c)
                    (pos r + Z.of_nat (length c)) (prefixLen r) (msgLen r))
                h (have ++ c) k) as (b' & Hrun & Hbody & Hs);
      cbn [pos msgLen prefixLen buf]; try assumption.
    + rewrite !length_app. lia.
    + rewrite length_app. lia.
    + discriminate.
    + rewrite !length_app. lia.
    + exists b'. cbn [pos msgLen prefixLen buf] in Hrun, Hbody, Hs.
      rewrite <- app_assoc in Hbody. split; [exact Hrun|]. split; assumption.
Qed.

(** One frame, delivered aligned to a reader that awaits a header: the
    processor is called once, on the body. *)
Lemma frame_dispatched body chunks r h :
  aligned body chunks ->
  msgLen r = 0 -> pos r = 0 -> initBufSize <= slen (buf r) ->
  Z.of_nat (length body) <= M ->
  Z.of_nat (length (frame body)) <= initBufSize ->
  exists b' k,
    slen b' = slen (buf r) /\
    readRun M onMsg (map ReadData chunks) r h =
      match onMsg body h with
      | (Some _, h') =>
          (Closed,
           mkReader b' (Z.of_nat (length (frame body))) k
             (Z.of_nat (length (frame body))), h')
      | (None, h') => (Running, mkReader b' 0 0 0, h')
      end.
Proof.
  intros (Hcat & Hall & Hhd) Hhdr Hpos Hinit HM Hfit.
  pose proof (PutUvarint_length (Z.of_nat (length body))) as Hk.
  pose proof (frame_length body) as Hflen.
  set (enc := PutUvarint (Z.of_nat (length body))) in *.
  assert (Hsize : initBufSize < 2 ^ 64) by (unfold initBufSize; lia).
  destruct chunks as [|c cs]; [cbn [hd length] in Hhd; lia|].
  cbn [hd] in Hhd. cbn [concat] in Hcat.
  inversion Hall as [|? ? Hc Hcs]; subst.
  assert (Hclen : (length c + length (concat cs) = length enc + length body)%nat).
  { rewrite <- length_app, Hcat. exact Hflen. }
  assert (Henc : c = enc ++ drop (length enc) c).
  { rewrite <- (take_drop (length enc) c) at 1. f_equal.
    rewrite <- (take_app_le c (concat cs)) by exact Hhd.
    rewrite Hcat. unfold frame. fold enc. apply take_app_length. }
  assert (Hholds : holds (store_at (buf r) (pos r) c) c).
  { rewrite Hpos. apply (holds_store_at (buf r) [] c); [|simpl; lia].
    apply holds_nil. lia. }
  assert (Hdec : Uvarint (store_at (buf r) (pos r) c) =
                   (Z.of_nat (length body), Z.of_nat (length enc))).
  { apply (Uvarint_PutUvarint _ _ (drop (length enc) c)); [lia|].
    fold enc. rewrite <- Henc. exact Hholds. }
  assert (Htotal : Z.of_nat (length body) + Z.of_nat (length enc) =
                   Z.of_nat (length (frame body))) by lia.
  cbn [map readRun].
  rewrite (readStep_parse r h c _ _ Hhdr ltac:(lia) Hdec) by lia.
  cbv zeta. cbn [pos msgLen]. rewrite Htotal.
  destruct cs as [|c' cs].
  - cbn [concat length] in Hclen. rewrite app_nil_r in Hcat.
    destruct (Z.eqb_spec (Z.of_nat (length c)) (Z.of_nat (length (frame body))));
      [|lia].
    exists (store_at (buf r) (pos r) c), (Z.of_nat (length enc)).
    split; [reflexivity|]. unfold after_frame. cbn [buf prefixLen msgLen].
    replace (Z.of_nat (length (frame body))) with (Z.of_nat (length c)) at 1 by lia.
    rewrite (slice_holds _ _ (length enc) Hholds) by lia.
    rewrite Hcat. unfold frame at 1. fold enc. rewrite drop_app_length.
    destruct (onMsg body h) as [[er|] h1]; reflexivity.
  - pose proof (concat_nonempty (c' :: cs) ltac:(discriminate) Hcs) as Hrest.
    destruct (Z.eqb_spec (Z.of_nat (length c)) (Z.of_nat (length (frame body))));
      [lia|].
    destruct (body_completed (c' :: cs)
                (mkReader (store_at (buf r) (pos r) c) (Z.of_nat (length c))
                   (Z.of_nat (length enc)) (Z.of_nat (length (frame body))))
                h c (length enc)) as (b' & Hrun & Hbody & Hs);
      cbn [pos msgLen prefixLen buf slen store_at]; try assumption; try lia.
    + rewrite length_app. lia.
    + discriminate.
    + rewrite length_app. lia.
    + exists b', (Z.of_nat (length enc)).
      cbn [pos msgLen prefixLen buf slen store_at] in Hrun, Hbody, Hs.
      split; [exact Hs|]. rewrite Hrun. unfold after_frame.
      cbn [buf prefixLen msgLen]. rewrite Hbody, Hcat. unfold frame at 1. fold enc.
      rewrite drop_app_length.
      destruct (onMsg body h) as [[er|] h1]; reflexivity.
Qed.

End ReaderMore.

(** *** Streams of frames *)

Section FrameStreams.

Context {H : Type}.
Variable onMsg : list byte -> H -> option error * H.
Variable M : Z.

(** Frames delivered aligned, one after the other, to a reader that awaits
    a header: the processor is called on the bodies in turn, and its first
    error ends the loop. *)
Lemma frames_dispatched msgs chunkss :
  Forall2 aligned msgs chunkss ->
  Forall (fun body =>
            Z.of_nat (length body) <= M /\
            Z.of_nat (length (frame body)) <= initBufSize) msgs ->
  forall r h,
    msgLen r = 0 -> pos r = 0 -> initBufSize <= slen (buf r) ->
    exists r',
      readRun M onMsg (map ReadData (concat chunkss)) r h =
        (fst (serveAll onMsg msgs h), r', snd (serveAll onMsg msgs h)) /\
      initBufSize <= slen (buf r') /\
      (fst (serveAll onMsg msgs h) = Running -> msgLen r' = 0 /\ pos r' = 0).
Proof.
  induction 1 as [|body chunks msgs chunkss Hal _ IH]; intros Hsizes r h Hhdr Hpos Hinit.
  - exists r. cbn. repeat split; assumption.
  - inversion Hsizes as [|? ? [HM Hfit] Hrest]; subst.
    destruct (frame_dispatched onMsg M body chunks r h Hal Hhdr Hpos Hinit HM Hfit)
      as (b' & k & Hs & Hrun).
    cbn [concat serveAll]. rewrite map_app, readRun_split, Hrun.
    destruct (onMsg body h) as [[er|] h1].
    + eexists. cbn [fst snd]. split; [reflexivity|]. cbn [buf].
      split; [lia|discriminate].
    + destruct (IH Hrest (mkReader b' 0 0 0) h1 eq_refl eq_refl) as (r2 & Hrun2 & Hs2 & Hm2);
        [cbn [buf]; lia|].
      exists r2. split; [exact Hrun2|]. split; assumption.
Qed.

(** X1: from a fresh connection, frames delivered aligned (no read empty,
    none reaching into the next frame, the first read of a frame carrying
    its whole prefix) are reassembled exactly, whatever the processor: it
    is called on the bodies as they were sent, in order, until one of its
    calls returns an error, which closes the stream; while it returns
    none the stream stays open.  The bodies must pass the size limit [M]
    and fit the initial buffer with their prefix. *)
Theorem framing_round_trip_aligned msgs chunkss h :
  Forall2 aligned msgs chunkss ->
  Forall (fun body =>
            Z.of_nat (length body) <= M /\
            Z.of_nat (length (frame body)) <= initBufSize) msgs ->
  exists r,
    readLoop M onMsg (map ReadData (concat chunkss)) h =
      (fst (serveAll onMsg msgs h), r, snd (serveAll onMsg msgs h)).
Proof.
  intros Hal Hsizes.
  destruct (frames_dispatched msgs chunkss Hal Hsizes initReader h)
    as (r & Hrun & _); [reflexivity | reflexivity | reflexivity |].
  exists r. exact Hrun.
Qed.

End FrameStreams.

(** *** A length prefix that is split between reads *)

(** The first byte of the prefix of a length of 128 or more, decoded with
    a zero byte behind it: the low seven bits of the length, as a prefix
    of two bytes. *)
Lemma Uvarint_lone_continuation b y :
  2 <= slen b -> 128 <= y < 2 ^ 64 ->
  sget b 0 = byte_of_Z (Z.lor y 128) -> sget b 1 = Byte.x00 ->
  Uvarint b = (y mod 128, 2).
Proof.
  intros Hlen Hy Hb0 Hb1. unfold Uvarint.
  pose proof (Z.mod_pos_bound y 128 ltac:(lia)) as Hr.
  destruct (Uvarint_step_cont b 10 0 0 y) as [_ Hstep]; try lia; [exact Hb0|].
  change (7 * 0) with 0 in Hstep. rewrite Hstep.
  change (2 ^ 0) with 1. change (0 + 1) with 1.
  rewrite (Uvarint_step_last b 9 1 (0 + y mod 128 * 1) 0); try lia;
    [f_equal; lia | exact Hb1].
Qed.

Lemma byte_by_byte_chunks (l : list byte) :
  byte_by_byte l = map ReadData (map (fun b => [b]) l).
Proof. unfold byte_by_byte. now rewrite map_map. Qed.

Lemma concat_singletons (l : list byte) : concat (map (fun b => [b]) l) = l.
Proof. induction l as [|b l IH]; [reflexivity|]. cbn. now rewrite IH. Qed.

Lemma singletons_nonempty (l : list byte) :
  Forall (fun c : list byte => c <> []) (map (fun b => [b]) l).
Proof. induction l; constructor; [discriminate|assumption]. Qed.

Section SplitPrefix.

Context {H : Type}.
Variable onMsg : list byte -> H -> option error * H.
Variable M : Z.

(** A frame with a body of [n >= 128] bytes, delivered one byte per read
    on a fresh connection.  Its prefix has two bytes or more; the first
    one arrives alone and is decoded with the zero byte behind it as the
    length [n mod 128] with a prefix of two bytes.  When [n mod 128 + 2]
    bytes have arrived, the processor is called on the [n mod 128] bytes
    of the stream that follow its second byte. *)
Lemma split_prefix_dispatch body n rest h :
  Z.of_nat (length body) = n -> 127 <= M -> 128 <= n < 2 ^ 64 ->
  exists r b',
    length (take (Z.to_nat (n mod 128)) (drop 2 (frame body))) = Z.to_nat (n mod 128) /\
    readLoop M onMsg
      (byte_by_byte (take (2 + Z.to_nat (n mod 128)) (frame body)) ++ rest) h =
      match onMsg (take (Z.to_nat (n mod 128)) (drop 2 (frame body))) h with
      | (Some _, h') => (Closed, r, h')
      | (None, h') => readRun M onMsg rest (mkReader b' 0 0 0) h'
      end.
Proof.
  intros Hn HM Hbig.
  pose proof (Z.mod_pos_bound n 128 ltac:(lia)) as Hlow.
  set (low := Z.to_nat (n mod 128)).
  assert (Henc : exists b2 tl, PutUvarint n = byte_of_Z (Z.lor n 128) :: b2 :: tl).
  { unfold PutUvarint. rewrite u64_small by lia. rewrite PutUvarint_loop_S.
    destruct (Z.leb_spec 128 n); [|lia]. rewrite PutUvarint_loop_S.
    destruct (128 <=? Z.shiftr n 7); eexists; eexists; reflexivity. }
  destruct Henc as (b2 & tl & Henc).
  unfold frame. rewrite Hn, Henc.
  change (drop 2 ((byte_of_Z (Z.lor n 128) :: b2 :: tl) ++ body)) with (tl ++ body).
  change (take (2 + low) ((byte_of_Z (Z.lor n 128) :: b2 :: tl) ++ body))
    with (byte_of_Z (Z.lor n 128) :: b2 :: take low (tl ++ body)).
  set (b1 := byte_of_Z (Z.lor n 128)).
  assert (Hgot : length (take low (tl ++ body)) = low).
  { rewrite length_take, length_app. lia. }
  set (got := take low (tl ++ body)) in *.
  assert (Hstream : byte_by_byte (b1 :: b2 :: got) ++ rest =
                    [ReadData [b1]] ++
                    (map ReadData (map (fun b => [b]) (b2 :: got)) ++ rest)).
  { rewrite byte_by_byte_chunks. reflexivity. }
  unfold readLoop. rewrite Hstream, readRun_split. cbn [readRun].
  assert (Hdec : Uvarint (store_at (buf initReader) (pos initReader) [b1]) = (n mod 128, 2)).
  { apply Uvarint_lone_continuation; [cbn; unfold initBufSize; lia | lia | | ];
      reflexivity. }
  rewrite (readStep_parse onMsg M initReader h [b1] _ _ eq_refl
             ltac:(cbn; unfold initBufSize; lia) Hdec)
    by (cbn; unfold initBufSize; lia).
  cbv zeta. cbn [pos msgLen length]. change (Z.of_nat 1) with 1.
  destruct (Z.eqb_spec 1 (n mod 128 + 2)); [lia|].
  rewrite readRun_split.
  destruct (body_completed onMsg M (map (fun b => [b]) (b2 :: got))
              (mkReader (store_at (buf initReader) (pos initReader) [b1]) 1 2
                 (n mod 128 + 2)) h [b1] 2) as (b' & Hrun & Hbody & Hs);
    cbn [pos msgLen prefixLen buf slen store_at]; rewrite ?concat_singletons;
    cbn [length app]; try reflexivity; try lia.
  - apply (holds_store_at (make initBufSize) [] [b1]);
      [apply holds_nil; cbn; unfold initBufSize; lia | cbn; unfold initBufSize; lia].
  - cbn; unfold initBufSize; lia.
  - apply singletons_nonempty.
  - discriminate.
  - cbn [pos msgLen prefixLen buf slen store_at] in Hrun, Hbody.
    rewrite concat_singletons in Hbody. change (drop 2 ([b1] ++ b2 :: got)) with got in Hbody.
    rewrite Hrun. unfold after_frame.
    cbn [buf prefixLen msgLen]. change (Z.of_nat 2) with 2 in Hbody. rewrite Hbody.
    destruct (onMsg got h) as [[er|] h1].
    + eexists. exists b'. split; [exact Hgot|reflexivity].
    + exists initReader, b'. split; [exact Hgot|reflexivity].
Qed.

(** C7 fails when the prefix of the oversized frame is split: a frame whose
    body of [n] bytes is longer than [MaxBlockSize], delivered one byte per
    read on a fresh connection, is not closed by the size check.  The check
    is made on the length that the first byte of the prefix gives on its
    own, [n mod 128]; once [n mod 128 + 2] bytes have arrived, the
    processor is called on [n mod 128] bytes of the frame, and its result
    decides whether the stream is closed or the loop goes on to read the
    rest of the frame as further frames. *)
Theorem oversized_split_prefix_served body n rest h :
  Z.of_nat (length body) = n -> 127 <= M -> M < n < 2 ^ 64 ->
  exists r b',
    length (take (Z.to_nat (n mod 128)) (drop 2 (frame body))) = Z.to_nat (n mod 128) /\
    readLoop M onMsg
      (byte_by_byte (take (2 + Z.to_nat (n mod 128)) (frame body)) ++ rest) h =
      match onMsg (take (Z.to_nat (n mod 128)) (drop 2 (frame body))) h with
      | (Some _, h') => (Closed, r, h')
      | (None, h') => readRun M onMsg rest (mkReader b' 0 0 0) h'
      end.
Proof.
  intros Hn HM Hbig. apply split_prefix_dispatch; [exact Hn | exact HM | lia].
Qed.

End SplitPrefix.

Section SplitPrefixServed.

Context {S : Type}.
Variable bs : Blockstore S.
Variable Unmarshal : list byte -> Message * option error.
Variable Marshal : Message -> list byte * option error.
Variable M : Z.

(** X24: with the processor of the server, a frame whose body length is a
    positive multiple of 128, delivered one byte per read on a fresh
    connection, ends the connection at its second byte: [onMessage] is
    called on an empty body instead of the body of the frame, finds
    nothing to send, and the reader closes the stream.  Nothing is
    enqueued and the store is not consulted.  The decoder is taken to fail
    on the empty input or to give a request without entries. *)
Theorem split_prefix_request_closes body n ss (s : S) m err :
  Z.of_nat (length body) = n -> 127 <= M -> 128 <= n < 2 ^ 64 -> n mod 128 = 0 ->
  Unmarshal [] = (m, err) -> (err = None -> Entries m = []) ->
  exists r,
    readLoop M (handle bs Unmarshal Marshal) (byte_by_byte (frame body)) (ss, s) =
      (Closed, r, (ss, s)).
Proof.
  intros Hn HM Hbig Hmod Hdec Hempty.
  destruct (split_prefix_dispatch (handle bs Unmarshal Marshal) M body n
              (byte_by_byte (drop 2 (frame body))) (ss, s) Hn HM Hbig)
    as (r & b' & _ & Hrun).
  rewrite Hmod in Hrun. change (Z.to_nat 0) with 0%nat in Hrun.
  change (2 + 0)%nat with 2%nat in Hrun.
  change (take 0 (drop 2 (frame body))) with (@nil byte) in Hrun.
  assert (Hsplit : byte_by_byte (take 2 (frame body)) ++ byte_by_byte (drop 2 (frame body)) =
                   byte_by_byte (frame body)).
  { unfold byte_by_byte. now rewrite <- map_app, take_drop. }
  rewrite Hsplit in Hrun. rewrite Hrun. unfold handle, onMessage. cbn [fst snd].
  rewrite Hdec. destruct err as [e|].
  - exists r. reflexivity.
  - rewrite (Hempty eq_refl). cbn. exists r. reflexivity.
Qed.

End SplitPrefixServed.

Lemma split_prefix_request_closes_witness :
  Z.of_nat (length body128) = 128 /\ 127 <= 1024 /\ 128 <= 128 < 2 ^ 64 /\
  128 mod 128 = 0 /\
  decodeAs [] [] = (mkMessage [] [] [], None) /\
  exists r,
    readLoop 1024 (handle memBlockstore (decodeAs []) encodeBlocks)
      (byte_by_byte (frame body128)) (mkSender [], sampleStore) =
      (Closed, r, (mkSender [], sampleStore)).
Proof.
  split; [reflexivity|]. split; [lia|]. split; [lia|]. split; [reflexivity|].
  split; [reflexivity|].
  apply (split_prefix_request_closes memBlockstore (decodeAs []) encodeBlocks 1024
           body128 128 (mkSender []) sampleStore (mkMessage [] [] []) None
           eq_refl ltac:(lia) ltac:(lia) eq_refl eq_refl).
  reflexivity.
Defined.

Lemma body3M_length : Z.of_nat (length body3M) = 3000000.
Proof. unfold body3M. rewrite length_replicate. lia. Qed.

(** With the block [A] in the store, the request of the specification's
    scenario is answered whatever bytes it was decoded from. *)
Lemma sample_request_answered (got : list byte) :
  handle memBlockstore (decodeAs sampleRequest) encodeBlocks got (mkSender [], sampleStore) =
    (None, (mkSender [hello], sampleStore)).
Proof. reflexivity. Qed.

Lemma oversized_split_prefix_served_witness :
  Z.of_nat (length body3M) = 3000000 /\
  127 <= 2 * 1024 * 1024 /\
  2 * 1024 * 1024 < 3000000 < 2 ^ 64 /\
  exists r,
    length (take 64 (drop 2 (frame body3M))) = 64%nat /\
    readLoop (2 * 1024 * 1024)
      (handle memBlockstore (decodeAs sampleRequest) encodeBlocks)
      (byte_by_byte (take 66 (frame body3M)) ++ []) (mkSender [], sampleStore) =
      (Running, r, (mkSender [hello], sampleStore)).
Proof.
  split; [exact body3M_length|]. split; [lia|]. split; [lia|].
  destruct (oversized_split_prefix_served
              (handle memBlockstore (decodeAs sampleRequest) encodeBlocks)
              (2 * 1024 * 1024) body3M 3000000 [] (mkSender [], sampleStore)
              body3M_length ltac:(lia) ltac:(lia)) as (r & b' & Hlen & Hrun).
  change (Z.to_nat (3000000 mod 128)) with 64%nat in Hlen, Hrun.
  change (2 + 64)%nat with 66%nat in Hrun.
  rewrite sample_request_answered in Hrun.
  exists (mkReader b' 0 0 0). split; [exact Hlen | exact Hrun].
Defined.

(** The same frame with a processor that records its calls: after 66
    single-byte reads it has been handed 64 bytes of the oversized frame,
    the last two bytes of the prefix and 62 bytes of the body, and the
    stream is open. *)
Lemma oversized_frame_bytes_dispatched :
  PutUvarint 3000000 = [Byte.xc0; Byte.x8d; Byte.xb7; Byte.x01] /\
  status_of (readLoop (2 * 1024 * 1024) record_body
               (byte_by_byte (PutUvarint 3000000 ++ replicate 62 Byte.x41)) []) = Running /\
  dispatched (readLoop (2 * 1024 * 1024) record_body
                (byte_by_byte (PutUvarint 3000000 ++ replicate 62 Byte.x41)) []) =
    [[Byte.xb7; Byte.x01] ++ replicate 62 Byte.x41].
Proof. split; [reflexivity|]. split; vm_compute; reflexivity. Qed.

Lemma oversized_prefix_rejected_witness :
  msgLen initReader = 0 /\ pos initReader = 0 /\
  Z.of_nat (length (PutUvarint 3000000 ++ hello)) <= slen (buf initReader) /\
  0 <= 3000000 < 2 ^ 64 /\ 2 * 1024 * 1024 < 3000000 /\
  exists r',
    readRun (2 * 1024 * 1024)
      (handle memBlockstore (decodeAs sampleRequest) encodeBlocks)
      (ReadData (PutUvarint 3000000 ++ hello) :: [ReadData hello]) initReader
      (mkSender [], sampleStore) = (Closed, r', (mkSender [], sampleStore)).
Proof.
  assert (Hfit : Z.of_nat (length (PutUvarint 3000000 ++ hello)) <= slen (buf initReader))
    by (vm_compute; discriminate).
  split; [reflexivity|]. split; [reflexivity|]. split; [exact Hfit|].
  split; [lia|]. split; [lia|].
  exact (oversized_prefix_rejected
           (handle memBlockstore (decodeAs sampleRequest) encodeBlocks)
           (2 * 1024 * 1024) initReader (mkSender [], sampleStore) 3000000 hello
           [ReadData hello] eq_refl eq_refl Hfit ltac:(lia) ltac:(lia)).
Defined.

(** *** The buffer and the frame *)

Section BufferFits.

Context {H : Type}.
Variable onMsg : list byte -> H -> option error * H.
Variable M : Z.



Hypothesis M_small : M + MaxVarintLen64 <= initBufSize.



End BufferFits.



(** *** The writer and the reader *)

(** X19: what [writeLoop] puts on the stream is parsed back by a
    [readLoop] at the other end: with writes that take all they are
    offered, and every write arriving as one read, the processor there is
    called on the queued messages as they were queued, in order, until one
    of its calls returns an error, which closes the stream.  The messages
    must pass the reader's size limit and fit its buffer with their
    prefix. *)
Theorem writer_reader_round_trip {H : Type} (onMsg : list byte -> H -> option error * H)
    M q k h :
  (2 * length q < k)%nat ->
  Forall (fun msg =>
            Z.of_nat (length msg) <= M /\
            Z.of_nat (length (frame msg)) <= initBufSize) q ->
  exists w r,
    writeLoop (replicate k WriteAll) (mkSender q) false = (Waiting, w) /\
    readLoop M onMsg (map ReadData (wire w)) h =
      (fst (serveAll onMsg q h), r, snd (serveAll onMsg q h)).
Proof.
  intros Hk Hsizes. unfold writeLoop. rewrite writeRun_drain by exact Hk.
  destruct (frames_dispatched onMsg M q (map sent_whole q)) with (r := initReader) (h := h)
    as (r & Hrun & _); [ | exact Hsizes | reflexivity | reflexivity | reflexivity | ].
  - clear. induction q as [|msg q IH]; constructor;
      [apply sent_whole_aligned | exact IH].
  - eexists. exists r. split; [reflexivity|].
    cbn [wire app]. rewrite app_nil_r. exact Hrun.
Qed.

Lemma writer_reader_round_trip_witness :
  (2 * length [hello; []; body128] < 7)%nat /\
  Forall (fun msg =>
            Z.of_nat (length msg) <= 1024 /\
            Z.of_nat (length (frame msg)) <= initBufSize) [hello; []; body128] /\
  exists w r,
    writeLoop (replicate 7 WriteAll) (mkSender [hello; []; body128]) false =
      (Waiting, w) /\
    readLoop 1024 (handle memBlockstore (decodeAs sampleRequest) encodeBlocks)
      (map ReadData (wire w)) (mkSender [], sampleStore) =
      (Running, r, (mkSender [hello; hello; hello], sampleStore)).
Proof.
  assert (Hsizes : Forall (fun msg =>
                     Z.of_nat (length msg) <= 1024 /\
                     Z.of_nat (length (frame msg)) <= initBufSize)
                     [hello; []; body128]).
  { repeat constructor; vm_compute; discriminate. }
  split; [simpl; lia|]. split; [exact Hsizes|].
  exact (writer_reader_round_trip
           (handle memBlockstore (decodeAs sampleRequest) encodeBlocks) 1024
           [hello; []; body128] 7 (mkSender [], sampleStore) ltac:(simpl; lia) Hsizes).
Defined.

Lemma readInto_length r data :
  0 <= slen (buf r) - pos r ->
  0 <= Z.of_nat (length (readInto r data)) <= slen (buf r) - pos r.
Proof.
  intros Hroom. unfold readInto.
  destruct (Z.leb_spec (Z.of_nat (length data)) (slen (buf r) - pos r)); [lia|].
  rewrite length_take. lia.
Qed.

Section ReaderBounds.

Context {H : Type}.
Variable onMsg : list byte -> H -> option error * H.
Variable M : Z.
Hypothesis M_fits : M + MaxVarintLen64 < 2 ^ 64.

Lemma readStep_bounds r h ev st r' h' :
  reader_bounds r ->
  readStep M onMsg r h ev = (st, r', h') ->
  reader_bounds r'.
Proof.
  intros (Hpos & Hlen & Hhead & Hpre). unfold reader_bounds.
  destruct ev as [data| | |]; cbn [readStep];
    try (intros [= <- <- <-]; repeat split; solve [lia | auto]).
  pose proof (readInto_length r data ltac:(lia)) as Hgot.
  set (got := readInto r data) in *.
  destruct (Z.eqb_spec (msgLen r) 0) as [Hhdr|Hacc].
  - destruct (Hhead Hhdr) as [Hp0 Hpre0].
    destruct (Uvarint _) as [nextLen intLen] eqn:Hdec.
    destruct (Uvarint_bounds _ _ _ Hdec) as [Hk Hn].
    destruct (Z.leb_spec intLen 0).
    { intros [= <- <- <-]. cbn. repeat split; solve [lia | auto]. }
    destruct (Z.ltb_spec M nextLen).
    { intros [= <- <- <-]. cbn. repeat split; solve [lia | auto]. }
    destruct (header_buffer M M_fits _ _ _ Hdec ltac:(lia) ltac:(lia))
      as (Hgrow & _ & Hsum & _).
    cbn [slen store_at] in Hgrow. cbn [pos msgLen prefixLen buf]. rewrite Hsum.
    assert (Hcap : slen (if slen (store_at (buf r) (pos r) got) <? nextLen
                         then make_copy (u64 (intLen + nextLen))
                                (store_at (buf r) (pos r) got)
                         else store_at (buf r) (pos r) got) < 2 ^ 64).
    { destruct (_ <? _); cbn; [|lia].
      unfold u64. apply Z.mod_pos_bound. lia. }
    set (b2 := if _ <? nextLen then _ else _) in *.
    destruct (_ =? _).
    + destruct (onMsg _ h) as [[er|] h1]; intros [= <- <- <-]; cbn;
        repeat split; lia.
    + intros [= <- <- <-]; cbn. repeat split; lia.
  - specialize (Hpre Hacc). cbn [pos msgLen prefixLen buf].
    rewrite (u64_small (pos r + Z.of_nat (length got))) by lia.
    destruct (_ =? _).
    + destruct (onMsg _ h) as [[er|] h1]; intros [= <- <- <-]; cbn;
        repeat split; lia.
    + intros [= <- <- <-]; cbn. repeat split; lia.
Qed.

Lemma readRun_bounds evs r h st r' h' :
  reader_bounds r ->
  readRun M onMsg evs r h = (st, r', h') ->
  reader_bounds r'.
Proof.
  revert r h. induction evs as [|ev evs IH]; intros r h Hinv; cbn [readRun].
  - now intros [= <- <- <-].
  - destruct (readStep M onMsg r h ev) as [[st1 r1] h1] eqn:Hstep.
    pose proof (readStep_bounds _ _ _ _ _ _ Hinv Hstep) as Hinv1.
    destruct st1; try (now intros [= <- <- <-]).
    apply IH. exact Hinv1.
Qed.

(** X3: the slice expressions of [readLoop] never go out of range: after
    any sequence of reads, [pos] lies between 0 and [len(buf)], so that
    [buf[pos:]] is defined; outside a frame [pos] is 0; and inside a frame
    the prefix length is positive and at most the frame length, so that
    [buf[prefixLen:msgLen]] is defined when [pos] reaches [msgLen].  The
    size limit must leave room for the prefix below [2^64]. *)
Theorem read_position_in_bounds evs h st r h' :
  readLoop M onMsg evs h = (st, r, h') ->
  0 <= pos r <= slen (buf r) /\
  (msgLen r = 0 -> pos r = 0 /\ prefixLen r = 0) /\
  (msgLen r <> 0 -> 0 < prefixLen r <= msgLen r) /\
  (pos r = msgLen r -> prefixLen r <= msgLen r <= slen (buf r)).
Proof.
  intros Hrun.
  assert (Hinit : reader_bounds initReader).
  { unfold reader_bounds, initReader, initBufSize. cbn. repeat split; lia. }
  destruct (readRun_bounds evs initReader h st r h' Hinit Hrun)
    as (Hpos & _ & Hhead & Hpre).
  split; [exact Hpos|]. split; [exact Hhead|]. split; [exact Hpre|].
  intros Heq. destruct (Z.eq_dec (msgLen r) 0) as [Hz|Hnz].
  - destruct (Hhead Hz). lia.
  - specialize (Hpre Hnz). lia.
Qed.

End ReaderBounds.

Section FrameOutcome.

Context {H : Type}.
Variable onMsg : list byte -> H -> option error * H.
Variable M : Z.


End FrameOutcome.

Section ServedFrames.

Context {S : Type}.
Variable bs : Blockstore S.
Variable Unmarshal : list byte -> Message * option error.
Variable Marshal : Message -> list byte * option error.
Variable M : Z.



End ServedFrames.

(** ** The send queue, continued *)

Lemma enqueueAll_from q0 msgs :
  (length q0 <= queueCap)%nat ->
  enqueueAll (mkSender q0) msgs =
    (replicate (Nat.min (queueCap - length q0) (length msgs)) None ++
     replicate (length msgs - (queueCap - length q0)) (Some ErrOverflow),
     mkSender (take queueCap (q0 ++ msgs))).
Proof.
  revert q0. induction msgs as [|msg msgs IH]; intros q0 Hcap.
  - cbn [enqueueAll length]. rewrite Nat.min_0_r, !app_nil_r, take_ge by lia.
    reflexivity.
  - cbn [enqueueAll]. destruct (Nat.lt_ge_cases (length q0) queueCap) as [Hroom|Hfull].
    + rewrite (enqueue_free (mkSender q0) msg Hroom). cbn [queue].
      rewrite IH by (rewrite length_app; cbn; lia).
      rewrite length_app. cbn [length]. rewrite <- app_assoc. cbn [app].
      replace (Nat.min (queueCap - length q0) (S (length msgs)))
        with (S (Nat.min (queueCap - (length q0 + 1)) (length msgs))) by lia.
      replace (S (length msgs) - (queueCap - length q0))%nat
        with (length msgs - (queueCap - (length q0 + 1)))%nat by lia.
      reflexivity.
    + rewrite (enqueue_full (mkSender q0) msg Hfull).
      rewrite IH by exact Hcap. cbn [length].
      replace (queueCap - length q0)%nat with 0%nat by lia.
      rewrite !Nat.min_0_l, !Nat.sub_0_r. cbn [replicate app].
      rewrite !take_app_le by lia. reflexivity.
Qed.

(** X16: with nobody receiving, the queue keeps the first five responses
    and sheds the rest: of any run of [enqueue] calls on the empty queue,
    the first five return no error and stay queued in their order, and
    every later one returns the overflow error and leaves the queue as it
    is.  The queue never holds more than five messages. *)
Theorem enqueue_keeps_first_five msgs :
  enqueueAll (mkSender []) msgs =
    (replicate (Nat.min 5 (length msgs)) None ++
     replicate (length msgs - 5) (Some ErrOverflow),
     mkSender (take 5 msgs)) /\
  (length (queue (snd (enqueueAll (mkSender []) msgs))) <= 5)%nat.
Proof.
  rewrite (enqueueAll_from [] msgs) by (cbn; unfold queueCap; lia).
  cbn [length app snd queue]. unfold queueCap. rewrite Nat.sub_0_r.
  split; [reflexivity|]. rewrite length_take. lia.
Qed.

(** ** The further properties on concrete inputs *)




Lemma framing_round_trip_aligned_witness :
  Forall2 aligned [hello; []]
    [[[Byte.x05; Byte.x68; Byte.x65]; [Byte.x6c; Byte.x6c; Byte.x6f]]; [[Byte.x00]]] /\
  (exists r,
     readLoop 1024 (handle memBlockstore (decodeAs sampleRequest) encodeBlocks)
       (map ReadData
          (concat [[[Byte.x05; Byte.x68; Byte.x65]; [Byte.x6c; Byte.x6c; Byte.x6f]];
                   [[Byte.x00]]])) (mkSender [], sampleStore) =
       (Running, r, (mkSender [hello; hello], sampleStore))) /\
  (exists r,
     readLoop 1024 (handle memBlockstore (decodeAs [wantHave "A" false]) encodeBlocks)
       (map ReadData
          (concat [[[Byte.x05; Byte.x68; Byte.x65]; [Byte.x6c; Byte.x6c; Byte.x6f]];
                   [[Byte.x00]]])) (mkSender [], sampleStore) =
       (Closed, r, (mkSender [], sampleStore))).
Proof.
  assert (Hal : Forall2 aligned [hello; []]
                  [[[Byte.x05; Byte.x68; Byte.x65]; [Byte.x6c; Byte.x6c; Byte.x6f]];
                   [[Byte.x00]]]).
  { repeat constructor; try reflexivity; try discriminate; vm_compute; lia. }
  assert (Hsizes : Forall (fun body =>
                     Z.of_nat (length body) <= 1024 /\
                     Z.of_nat (length (frame body)) <= initBufSize) [hello; []]).
  { repeat constructor; vm_compute; discriminate. }
  split; [exact Hal|]. split.
  - exact (framing_round_trip_aligned
             (handle memBlockstore (decodeAs sampleRequest) encodeBlocks) 1024
             [hello; []] _ (mkSender [], sampleStore) Hal Hsizes).
  - exact (framing_round_trip_aligned
             (handle memBlockstore (decodeAs [wantHave "A" false]) encodeBlocks) 1024
             [hello; []] _ (mkSender [], sampleStore) Hal Hsizes).
Defined.

Lemma buffer_holds_body_witness :
  1024 + MaxVarintLen64 < 2 ^ 64 /\
  initBufSize <=
    slen (buf (snd (fst (readLoop 1024 record_body [ReadData [Byte.x05; Byte.x68]] [])))).
Proof.
  assert (Hfits : 1024 + MaxVarintLen64 < 2 ^ 64) by (vm_compute; reflexivity).
  split; [exact Hfits|].
  apply (buffer_holds_body record_body 1024 Hfits [ReadData [Byte.x05; Byte.x68]] []
           (fst (fst (readLoop 1024 record_body [ReadData [Byte.x05; Byte.x68]] [])))
           _ (snd (readLoop 1024 record_body [ReadData [Byte.x05; Byte.x68]] []))).
  now destruct (readLoop _ _ _ _) as [[? ?] ?].
Defined.

Lemma read_position_in_bounds_witness :
  1024 + MaxVarintLen64 < 2 ^ 64 /\
  0 <= pos (snd (fst (readLoop 1024 record_body [ReadData [Byte.x05; Byte.x68]] [])))
    <= slen (buf (snd (fst (readLoop 1024 record_body
                              [ReadData [Byte.x05; Byte.x68]] [])))).
Proof.
  assert (Hfits : 1024 + MaxVarintLen64 < 2 ^ 64) by (vm_compute; reflexivity).
  split; [exact Hfits|].
  apply (read_position_in_bounds record_body 1024 Hfits [ReadData [Byte.x05; Byte.x68]] []
           (fst (fst (readLoop 1024 record_body [ReadData [Byte.x05; Byte.x68]] [])))
           _ (snd (readLoop 1024 record_body [ReadData [Byte.x05; Byte.x68]] []))).
  now destruct (readLoop _ _ _ _) as [[? ?] ?].
Defined.

Lemma stream_end_stops_witness :
  readRun 1024 record_body [ReadData [Byte.x05; Byte.x68]] initReader [] =
    (Running,
     mkReader (store_at (make initBufSize) 0 [Byte.x05; Byte.x68]) 2 1 6, []) /\
  readRun 1024 record_body ([ReadData [Byte.x05; Byte.x68]] ++ ReadEOF :: [ReadData hello])
    initReader [] =
    (Returned,
     mkReader (store_at (make initBufSize) 0 [Byte.x05; Byte.x68]) 2 1 6, []).
Proof.
  assert (Hrun : readRun 1024 record_body [ReadData [Byte.x05; Byte.x68]] initReader [] =
                 (Running,
                  mkReader (store_at (make initBufSize) 0 [Byte.x05; Byte.x68]) 2 1 6, []))
    by (vm_compute; reflexivity).
  split; [exact Hrun|].
  apply (stream_end_stops record_body 1024 _ [ReadData hello] _ _ _ _ Hrun).
Defined.




Lemma store_Get_agrees_with_Has_witness :
  fst (store_Has sampleStore "A") = true /\
  db sampleStore !! "A"%string = Some (fst (store_Get sampleStore "A")).
Proof.
  split; [reflexivity|].
  apply (store_Get_agrees_with_Has sampleStore "A"). reflexivity.
Defined.
